(** * Modern CMS: services over the relational store

    A shallow embedding of the service layer of the CMS
    (app/services/post.py, comment.py, category.py) and of the category
    endpoints (app/api/v1/categories.py).  Tables are lists of rows in
    storage order; an ORM object handed to a service is the row with the
    same primary key, and mutating it rewrites that row.  Python integers
    are [Z]; the float column [Post.rating] is an exact rational ([Qc]),
    so rounding is left out of the picture. *)

From Stdlib Require Import QArith Qcanon.
From stdpp Require Import base decidable option list numbers strings pretty sorting.

Local Open Scope Z_scope.

(** ** Outcomes of a call *)

(** What a call can raise: an HTTP refusal of a handler, SQLAlchemy's
    [MultipleResultsFound] and [IntegrityError] (the database refuses a
    row at the flush: a unique index or a NOT NULL column), Python's
    [TypeError] and [ZeroDivisionError].  [OutOfFuel] belongs to the
    model of the slug loops only. *)
Inductive error : Type :=
  | HTTPException (status : Z)
  | MultipleResultsFound
  | IntegrityError
  | TypeError
  | ZeroDivisionError
  | OutOfFuel.

Inductive result (A : Type) : Type :=
  | Ok (a : A)
  | Err (e : error).
Arguments Ok {A} a.
Arguments Err {A} e.

Definition HTTP_400_BAD_REQUEST : Z := 400.
Definition HTTP_404_NOT_FOUND : Z := 404.

(** [Result.scalar_one_or_none]: no row gives [None], one row gives it,
    more than one raises. *)
Definition scalar_one_or_none {A : Type} (rows : list A) : result (option A) :=
  match rows with
  | [] => Ok None
  | [r] => Ok (Some r)
  | _ :: _ :: _ => Err MultipleResultsFound
  end.

(** Python truthiness of an [Optional[int]]: [None] and [0] are falsy. *)
Definition truthy (x : option Z) : bool :=
  match x with
  | Some v => negb (v =? 0)
  | None => false
  end.

(** Primary keys are handed out by the store: one more than the largest
    key present. *)
Definition next_id (ids : list Z) : Z := 1 + foldr Z.max 0 ids.

(** ** Rows (app/models) *)

Record Category : Type := mkCategory {
  cat_id : Z;
  cat_name : string;
  cat_slug : string;
  cat_parent_id : option Z;
  cat_is_active : bool;
  cat_show_in_menu : bool;
  cat_position : Z;
  cat_posts_count : Z
}.

Record Post : Type := mkPost {
  post_id : Z;
  post_title : string;
  post_slug : string;
  post_author_id : Z;
  post_is_published : bool;
  post_rating : Qc;
  post_votes_count : Z;
  post_categories : list Z
}.

Record PostRating : Type := mkPostRating {
  pr_id : Z;
  pr_post_id : Z;
  pr_user_id : option Z;
  pr_ip_address : string;
  pr_rating : Z
}.

Record Comment : Type := mkComment {
  com_id : Z;
  com_content : string;
  com_post_id : Z;
  com_author_id : option Z;
  com_parent_id : option Z;
  com_is_approved : bool;
  com_is_pinned : bool;
  com_likes_count : Z;
  com_dislikes_count : Z;
  com_created_at : Z
}.

Record CommentVote : Type := mkCommentVote {
  cv_id : Z;
  cv_comment_id : Z;
  cv_user_id : option Z;
  cv_ip_address : string;
  cv_vote : Z
}.

(** ** Slug de-duplication

    The loop shared by [PostService.create] and [CategoryService.create]:

      slug = base_slug; counter = 1
      while await self.get_by_slug(slug):
          slug = f"{base_slug}-{counter}"; counter += 1
*)
Module Slug.

Definition candidate (base_slug : string) (counter : N) : string :=
  base_slug +:+ "-" +:+ pretty counter.

Fixpoint loop (fuel : nat) (taken : string → bool)
    (base_slug slug : string) (counter : N) : option string :=
  match fuel with
  | O => None
  | S fuel' =>
      if taken slug
      then loop fuel' taken base_slug (candidate base_slug counter) (counter + 1)%N
      else Some slug
  end.

(** The slugs the loop looks at, in order: the base itself, then
    [base-1], [base-2], ... *)
Definition nth_candidate (base_slug : string) (k : nat) : string :=
  match k with
  | O => base_slug
  | S _ => candidate base_slug (N.of_nat k)
  end.

End Slug.

(** ** The store *)

Record Db : Type := mkDb {
  posts : list Post;
  post_ratings : list PostRating;
  categories : list Category;
  comments : list Comment;
  comment_votes : list CommentVote
}.

Definition set_posts (db : Db) (ps : list Post) : Db :=
  mkDb ps (post_ratings db) (categories db) (comments db) (comment_votes db).
Definition set_post_ratings (db : Db) (rs : list PostRating) : Db :=
  mkDb (posts db) rs (categories db) (comments db) (comment_votes db).
Definition set_categories (db : Db) (cs : list Category) : Db :=
  mkDb (posts db) (post_ratings db) cs (comments db) (comment_votes db).
Definition set_comments (db : Db) (cs : list Comment) : Db :=
  mkDb (posts db) (post_ratings db) (categories db) cs (comment_votes db).
Definition set_comment_votes (db : Db) (vs : list CommentVote) : Db :=
  mkDb (posts db) (post_ratings db) (categories db) (comments db) vs.

(** A table keyed by its primary key.  [get] is a primary-key lookup,
    [put] is the flush of a mutated object, [add] an insert and [remove]
    a delete. *)
Module Table.
Section ops.
Context {A : Type} (key : A → Z).

Definition get (id : Z) (t : list A) : option A :=
    head (filter (λ r, key r = id) t).

Definition put (row : A) (t : list A) : list A :=
    (λ r, if decide (key r = key row) then row else r) <$> t.

Definition add (row : A) (t : list A) : list A := t ++ [row].

Definition remove (id : Z) (t : list A) : list A :=
    filter (λ r, key r ≠ id) t.

Definition fresh (t : list A) : Z := next_id (key <$> t).
End ops.
End Table.

(** Field updates of the rows the services mutate. *)
Definition post_set_rating (p : Post) (r : Qc) (n : Z) : Post :=
  mkPost (post_id p) (post_title p) (post_slug p) (post_author_id p)
         (post_is_published p) r n (post_categories p).
Definition post_set_categories (p : Post) (cs : list Z) : Post :=
  mkPost (post_id p) (post_title p) (post_slug p) (post_author_id p)
         (post_is_published p) (post_rating p) (post_votes_count p) cs.
Definition pr_set_rating (r : PostRating) (v : Z) : PostRating :=
  mkPostRating (pr_id r) (pr_post_id r) (pr_user_id r) (pr_ip_address r) v.
Definition cv_set_vote (r : CommentVote) (v : Z) : CommentVote :=
  mkCommentVote (cv_id r) (cv_comment_id r) (cv_user_id r) (cv_ip_address r) v.
Definition com_set_content (c : Comment) (s : string) : Comment :=
  mkComment (com_id c) s (com_post_id c) (com_author_id c) (com_parent_id c)
            (com_is_approved c) (com_is_pinned c) (com_likes_count c)
            (com_dislikes_count c) (com_created_at c).
Definition com_set_is_approved (c : Comment) (b : bool) : Comment :=
  mkComment (com_id c) (com_content c) (com_post_id c) (com_author_id c)
            (com_parent_id c) b (com_is_pinned c) (com_likes_count c)
            (com_dislikes_count c) (com_created_at c).
Definition com_set_is_pinned (c : Comment) (b : bool) : Comment :=
  mkComment (com_id c) (com_content c) (com_post_id c) (com_author_id c)
            (com_parent_id c) (com_is_approved c) b (com_likes_count c)
            (com_dislikes_count c) (com_created_at c).
Definition com_set_counts (c : Comment) (likes dislikes : Z) : Comment :=
  mkComment (com_id c) (com_content c) (com_post_id c) (com_author_id c)
            (com_parent_id c) (com_is_approved c) (com_is_pinned c)
            likes dislikes (com_created_at c).
Definition cat_set_posts_count (c : Category) (n : Z) : Category :=
  mkCategory (cat_id c) (cat_name c) (cat_slug c) (cat_parent_id c)
             (cat_is_active c) (cat_show_in_menu c) (cat_position c) n.
Definition cat_set_parent_id (c : Category) (p : option Z) : Category :=
  mkCategory (cat_id c) (cat_name c) (cat_slug c) p
             (cat_is_active c) (cat_show_in_menu c) (cat_position c)
             (cat_posts_count c).

(** Python [int] to [float]. *)
Definition Z2Qc (z : Z) : Qc := Q2Qc (inject_Z z).

(** ** Post service (app/services/post.py) *)

Record PostCreate : Type := mkPostCreate {
  pc_title : string;
  pc_is_published : bool;
  pc_category_ids : list Z
}.

Module PostService.
Section with_slugify.
(** [slugify] comes from the python-slugify package. *)
Variable slugify : string → string.

Definition get_by_id (db : Db) (id : Z) : option Post :=
  Table.get post_id id (posts db).

(** The [slug] column is unique, so at most one row can match. *)
Definition get_by_slug (db : Db) (slug : string) : option Post :=
  head (filter (λ p, post_slug p = slug) (posts db)).

Definition _set_categories (db : Db) (post : Post) (category_ids : list Z)
    : Db * Post :=
  let cats := filter (λ c, cat_id c ∈ category_ids) (categories db) in
  let post' := post_set_categories post (cat_id <$> cats) in
  (set_posts db (Table.put post_id post' (posts db)), post').

Definition create (db : Db) (data : PostCreate) (author_id : Z)
    : result (Db * Post) :=
  let base_slug := slugify (pc_title data) in
  match Slug.loop (S (length (posts db)))
                  (λ s, bool_decide (is_Some (get_by_slug db s)))
                  base_slug base_slug 1%N with
  | None => Err OutOfFuel
  | Some slug =>
      let post := mkPost (Table.fresh post_id (posts db)) (pc_title data) slug
                         author_id (pc_is_published data) 0%Qc 0 [] in
      let db1 := set_posts db (Table.add post (posts db)) in
      match pc_category_ids data with
      | [] => Ok (db1, post)
      | _ :: _ => Ok (_set_categories db1 post (pc_category_ids data))
      end
  end.

End with_slugify.

(** The row of an earlier vote of this caller: same post, and the same
    user id (when the caller has one) or the same address. *)
Definition same_voter (user_id : option Z) (ip : string) (r : PostRating) : Prop :=
  (truthy user_id ∧ pr_user_id r = user_id) ∨ pr_ip_address r = ip.

Definition rate_post (db : Db) (post : Post) (rating : Z)
    (user_id : option Z) (ip : string) : result (Db * (Qc * Z)) :=
  match scalar_one_or_none
          (filter (λ r, pr_post_id r = post_id post ∧ same_voter user_id ip r)
                  (post_ratings db)) with
  | Err e => Err e
  | Ok (Some existing_rating) =>
      let old_rating := pr_rating existing_rating in
      let rows := Table.put pr_id (pr_set_rating existing_rating rating)
                            (post_ratings db) in
      if decide (post_votes_count post = 0) then Err ZeroDivisionError else
      let avg := ((post_rating post * Z2Qc (post_votes_count post)
                   - Z2Qc old_rating + Z2Qc rating)
                  / Z2Qc (post_votes_count post))%Qc in
      let post' := post_set_rating post avg (post_votes_count post) in
      Ok (set_posts (set_post_ratings db rows)
                    (Table.put post_id post' (posts db)),
          (post_rating post', post_votes_count post'))
  | Ok None =>
      let new_rating := mkPostRating (Table.fresh pr_id (post_ratings db))
                                     (post_id post) user_id ip rating in
      let rows := Table.add new_rating (post_ratings db) in
      let votes_count := post_votes_count post + 1 in
      if decide (votes_count = 0) then Err ZeroDivisionError else
      let avg := ((post_rating post * Z2Qc (votes_count - 1) + Z2Qc rating)
                  / Z2Qc votes_count)%Qc in
      let post' := post_set_rating post avg votes_count in
      Ok (set_posts (set_post_ratings db rows)
                    (Table.put post_id post' (posts db)),
          (post_rating post', post_votes_count post'))
  end.

End PostService.

(** POST /posts/{post_id}/rate (app/api/v1/posts.py).  The request body
    is a [PostRatingRequest], whose [rating] field is declared with
    [ge=1, le=5]; a body outside that range is refused with 422 before
    the handler runs. *)
Definition HTTP_422_UNPROCESSABLE : Z := 422.

Definition rate_post_endpoint (db : Db) (post_id : Z) (rating : Z)
    (user_id : option Z) (ip : string) : result (Db * (Qc * Z)) :=
  if decide (1 ≤ rating ≤ 5) then
    match PostService.get_by_id db post_id with
    | None => Err (HTTPException HTTP_404_NOT_FOUND)
    | Some post => PostService.rate_post db post rating user_id ip
    end
  else Err (HTTPException HTTP_422_UNPROCESSABLE).

(** ** Comment service (app/services/comment.py) *)

Record CommentCreate : Type := mkCommentCreate {
  cc_content : string;
  cc_post_id : Z;
  cc_parent_id : option Z
}.

Module CommentService.

Definition get_by_id (db : Db) (id : Z) : option Comment :=
  Table.get com_id id (comments db).

(** The [replies] relationship of a comment: the rows whose [parent_id]
    is this comment. *)
Definition replies (db : Db) (c : Comment) : list Comment :=
  filter (λ r, com_parent_id r = Some (com_id c)) (comments db).

(** [Comment(...)] leaves [is_approved], [is_pinned], [likes_count],
    [dislikes_count] and [created_at] to their column defaults
    (app/models/comment.py): [True], [False], [0], [0] and the clock. *)
Definition create (db : Db) (data : CommentCreate) (author_id : option Z)
    (now : Z) : Db * Comment :=
  let comment := mkComment (Table.fresh com_id (comments db))
                           (cc_content data) (cc_post_id data) author_id
                           (cc_parent_id data) true false 0 0 now in
  (set_comments db (Table.add comment (comments db)), comment).

Definition flush (db : Db) (comment : Comment) : Db :=
  set_comments db (Table.put com_id comment (comments db)).

Definition update (db : Db) (comment : Comment) (content : string)
    : Db * Comment :=
  let comment' := com_set_content comment content in
  (flush db comment', comment').

Definition approve (db : Db) (comment : Comment) : Db * Comment :=
  let comment' := com_set_is_approved comment true in
  (flush db comment', comment').

Definition pin (db : Db) (comment : Comment) : Db * Comment :=
  let comment' := com_set_is_pinned comment true in
  (flush db comment', comment').

Definition unpin (db : Db) (comment : Comment) : Db * Comment :=
  let comment' := com_set_is_pinned comment false in
  (flush db comment', comment').

(** ORDER BY is_pinned DESC, created_at DESC. *)
Definition pinned_newest_first (a b : Comment) : Prop :=
  match com_is_pinned a, com_is_pinned b with
  | true, false => True
  | false, true => False
  | _, _ => com_created_at b ≤ com_created_at a
  end.

Global Instance pinned_newest_first_dec a b : Decision (pinned_newest_first a b).
Proof.
  unfold pinned_newest_first.
  destruct (com_is_pinned a), (com_is_pinned b); apply _.
Defined.

Definition top_level (post_id : Z) (approved_only : bool) (c : Comment) : Prop :=
  com_post_id c = post_id ∧ com_parent_id c = None ∧
  (approved_only → com_is_approved c).

Definition get_by_post (db : Db) (post_id page per_page : Z)
    (approved_only : bool) : list (Comment * list Comment) * Z :=
  let rows := filter (top_level post_id approved_only) (comments db) in
  let total := Z.of_nat (length rows) in
  let ordered := merge_sort pinned_newest_first rows in
  let offset := (page - 1) * per_page in
  let page_rows := take (Z.to_nat per_page) (drop (Z.to_nat offset) ordered) in
  ((λ c, (c, replies db c)) <$> page_rows, total).

Definition same_voter (user_id : option Z) (ip : string) (r : CommentVote) : Prop :=
  (truthy user_id ∧ cv_user_id r = user_id) ∨ cv_ip_address r = ip.

Definition vote (db : Db) (comment : Comment) (vote : Z)
    (user_id : option Z) (ip : string) : result (Db * Comment * (Z * Z)) :=
  match scalar_one_or_none
          (filter (λ r, cv_comment_id r = com_id comment ∧ same_voter user_id ip r)
                  (comment_votes db)) with
  | Err e => Err e
  | Ok (Some existing_vote) =>
      let old_vote := cv_vote existing_vote in
      let likes := com_likes_count comment in
      let dislikes := com_dislikes_count comment in
      let '(rows, comment') :=
        if decide (vote = 0) then
          (Table.remove cv_id (cv_id existing_vote) (comment_votes db),
           if decide (old_vote = 1)
           then com_set_counts comment (likes - 1) dislikes
           else com_set_counts comment likes (dislikes - 1))
        else
          (Table.put cv_id (cv_set_vote existing_vote vote) (comment_votes db),
           if decide (old_vote ≠ vote) then
             if decide (vote = 1)
             then com_set_counts comment (likes + 1) (dislikes - 1)
             else com_set_counts comment (likes - 1) (dislikes + 1)
           else comment) in
      Ok (flush (set_comment_votes db rows) comment', comment',
          (com_likes_count comment', com_dislikes_count comment'))
  | Ok None =>
      let likes := com_likes_count comment in
      let dislikes := com_dislikes_count comment in
      let '(rows, comment') :=
        if decide (vote ≠ 0) then
          (Table.add (mkCommentVote (Table.fresh cv_id (comment_votes db))
                                    (com_id comment) user_id ip vote)
                     (comment_votes db),
           if decide (vote = 1)
           then com_set_counts comment (likes + 1) dislikes
           else com_set_counts comment likes (dislikes + 1))
        else (comment_votes db, comment) in
      Ok (flush (set_comment_votes db rows) comment', comment',
          (com_likes_count comment', com_dislikes_count comment'))
  end.

(** The same caller voting several times in a row on one comment object. *)
Fixpoint vote_seq (db : Db) (comment : Comment) (votes : list Z)
    (user_id : option Z) (ip : string) : result (Db * Comment) :=
  match votes with
  | [] => Ok (db, comment)
  | v :: votes' =>
      match vote db comment v user_id ip with
      | Err e => Err e
      | Ok (db', comment', _) => vote_seq db' comment' votes' user_id ip
      end
  end.

(** What a service call can do to one comment object. *)
Inductive action : Type :=
  | Update (content : string)
  | Approve
  | Pin
  | Unpin
  | Vote (vote : Z) (user_id : option Z) (ip : string).

Definition run (db : Db) (comment : Comment) (a : action)
    : result (Db * Comment) :=
  match a with
  | Update content => Ok (update db comment content)
  | Approve => Ok (approve db comment)
  | Pin => Ok (pin db comment)
  | Unpin => Ok (unpin db comment)
  | Vote v user_id ip =>
      match vote db comment v user_id ip with
      | Err e => Err e
      | Ok (db', comment', _) => Ok (db', comment')
      end
  end.

End CommentService.

(** ** Category service (app/services/category.py) *)

Record CategoryCreate : Type := mkCategoryCreate {
  cc_name : string;
  cc_cat_parent_id : option Z;
  cc_is_active : bool;
  cc_show_in_menu : bool;
  cc_position : Z
}.

(** A PATCH body.  Every field is declared [Optional[...] = None]:
    [None] is a field the request did not set ([exclude_unset] drops
    it), [Some None] an explicit null, [Some (Some v)] a value. *)
Record CategoryUpdate : Type := mkCategoryUpdate {
  cu_name : option (option string);
  cu_parent_id : option (option Z);
  cu_is_active : option (option bool);
  cu_show_in_menu : option (option bool);
  cu_position : option (option Z)
}.

(** What [setattr] leaves in a column: the old value when the body does
    not set the field, otherwise what the body carries, [None] for an
    explicit null. *)
Definition written {A : Type} (old : A) (new : option (option A)) : option A :=
  match new with
  | None => Some old
  | Some v => v
  end.

(** Reading [data.parent_id]: an unset field reads as its default, [None]. *)
Definition cu_parent_id_attr (data : CategoryUpdate) : option Z :=
  default None (cu_parent_id data).

Module CategoryService.
Section with_slugify.
Variable slugify : string → string.

Definition get_by_id (db : Db) (id : Z) : option Category :=
  Table.get cat_id id (categories db).

Definition get_by_slug (db : Db) (slug : string) : option Category :=
  head (filter (λ c, cat_slug c = slug) (categories db)).

(** The slug loop runs first; the flush then inserts the row, which the
    unique index on [name] (app/models/category.py) refuses when a row
    already carries the name. *)
Definition create (db : Db) (data : CategoryCreate) : result (Db * Category) :=
  let base_slug := slugify (cc_name data) in
  match Slug.loop (S (length (categories db)))
                  (λ s, bool_decide (is_Some (get_by_slug db s)))
                  base_slug base_slug 1%N with
  | None => Err OutOfFuel
  | Some slug =>
      let category :=
        mkCategory (Table.fresh cat_id (categories db)) (cc_name data) slug
                   (cc_cat_parent_id data) (cc_is_active data)
                   (cc_show_in_menu data) (cc_position data) 0 in
      if decide (cc_name data ∈ cat_name <$> categories db)
      then Err IntegrityError
      else Ok (set_categories db (Table.add category (categories db)), category)
  end.

(** The slug an update writes: unchanged unless the name is set and
    slugifies to something else, in which case the first candidate that
    no other row holds.  A name set to null reaches [slugify(None)],
    which raises: python-slugify decodes an argument that is not a
    [str], and [None] cannot be decoded. *)
Definition update_slug (db : Db) (category : Category) (data : CategoryUpdate)
    : result string :=
  match cu_name data with
  | None => Ok (cat_slug category)
  | Some None => Err TypeError
  | Some (Some name) =>
      let new_slug := slugify name in
      if decide (new_slug ≠ cat_slug category) then
        match Slug.loop (S (length (categories db)))
                (λ s, match get_by_slug db s with
                      | Some existing => bool_decide (cat_id existing ≠ cat_id category)
                      | None => false
                      end)
                new_slug new_slug 1%N with
        | Some slug => Ok slug
        | None => Err OutOfFuel
        end
      else Ok (cat_slug category)
  end.

(** Some other row carries the name: what the unique index on [name]
    refuses at the flush of an update. *)
Definition name_clash (db : Db) (category : Category) (name : string) : Prop :=
  Exists (λ c, cat_id c ≠ cat_id category ∧ cat_name c = name) (categories db).

(** After the slug, [setattr] writes every field the body sets and the
    flush sends the row: [name], [is_active], [show_in_menu] and
    [position] are NOT NULL columns, and [name] is unique. *)
Definition update (db : Db) (category : Category) (data : CategoryUpdate)
    : result (Db * Category) :=
  match update_slug db category data with
  | Err e => Err e
  | Ok slug =>
      match written (cat_name category) (cu_name data),
            written (cat_is_active category) (cu_is_active data),
            written (cat_show_in_menu category) (cu_show_in_menu data),
            written (cat_position category) (cu_position data) with
      | Some name, Some is_active, Some show_in_menu, Some position =>
          let category' :=
            mkCategory (cat_id category) name slug
                       (default (cat_parent_id category) (cu_parent_id data))
                       is_active show_in_menu position
                       (cat_posts_count category) in
          if decide (name_clash db category name)
          then Err IntegrityError
          else Ok (set_categories db (Table.put cat_id category' (categories db)),
                   category')
      | _, _, _, _ => Err IntegrityError
      end
  end.

End with_slugify.

(** [parent_id] is declared ON DELETE SET NULL and the rows of
    [post_categories] ON DELETE CASCADE. *)
Definition delete (db : Db) (category : Category) : Db :=
  let orphan c :=
    if decide (cat_parent_id c = Some (cat_id category))
    then cat_set_parent_id c None else c in
  let unlink p :=
    post_set_categories p (filter (λ i, i ≠ cat_id category) (post_categories p)) in
  set_posts
    (set_categories db (orphan <$> Table.remove cat_id (cat_id category) (categories db)))
    (unlink <$> posts db).

(** The [children] relationship of a category (app/models/category.py):
    the rows whose [parent_id] is this category.  The relationship has
    neither a filter nor an [order_by]. *)
Definition children (db : Db) (c : Category) : list Category :=
  filter (λ r, cat_parent_id r = Some (cat_id c)) (categories db).

(** ORDER BY position, name. *)
Definition by_position_name (a b : Category) : Prop :=
  cat_position a < cat_position b ∨
  (cat_position a = cat_position b ∧ String.le (cat_name a) (cat_name b)).

Definition is_root (active_only : bool) (c : Category) : Prop :=
  cat_parent_id c = None ∧ (active_only → cat_is_active c).

Definition get_tree (db : Db) (active_only : bool)
    : list (Category * list Category) :=
  let rows := filter (is_root active_only) (categories db) in
  (λ c, (c, children db c)) <$> merge_sort by_position_name rows.

Definition increment_posts_count (db : Db) (category : Category) : Db * Category :=
  let category' := cat_set_posts_count category (cat_posts_count category + 1) in
  (set_categories db (Table.put cat_id category' (categories db)), category').

Definition decrement_posts_count (db : Db) (category : Category) : Db * Category :=
  if decide (cat_posts_count category > 0) then
    let category' := cat_set_posts_count category (cat_posts_count category - 1) in
    (set_categories db (Table.put cat_id category' (categories db)), category')
  else (db, category).

End CategoryService.

(** ** Category endpoints (app/api/v1/categories.py)

    A handler returns the store it leaves behind and its response; the
    refusals below are raised before anything is written. *)
Module CategoriesApi.
Section with_slugify.
Variable slugify : string → string.

Definition create_category (db : Db) (data : CategoryCreate)
    : Db * result Category :=
  let parent_missing :=
    match cc_cat_parent_id data with
    | Some parent_id =>
        truthy (Some parent_id) &&
        bool_decide (CategoryService.get_by_id db parent_id = None)
    | None => false
    end in
  if parent_missing
  then (db, Err (HTTPException HTTP_400_BAD_REQUEST))
  else
    match CategoryService.create slugify db data with
    | Ok (db', category) => (db', Ok category)
    | Err e => (db, Err e)
    end.

Definition update_category (db : Db) (category_id : Z) (data : CategoryUpdate)
    : Db * result Category :=
  match CategoryService.get_by_id db category_id with
  | None => (db, Err (HTTPException HTTP_404_NOT_FOUND))
  | Some category =>
      if truthy (cu_parent_id_attr data) &&
         bool_decide (cu_parent_id_attr data = Some category_id)
      then (db, Err (HTTPException HTTP_400_BAD_REQUEST))
      else
        match CategoryService.update slugify db category data with
        | Ok (db', updated) => (db', Ok updated)
        | Err e => (db, Err e)
        end
  end.

End with_slugify.

Definition delete_category (db : Db) (category_id : Z) : Db * result unit :=
  match CategoryService.get_by_id db category_id with
  | None => (db, Err (HTTPException HTTP_404_NOT_FOUND))
  | Some category =>
      if decide (cat_posts_count category > 0)
      then (db, Err (HTTPException HTTP_400_BAD_REQUEST))
      else (CategoryService.delete db category, Ok ())
  end.

End CategoriesApi.

(** ** Cycles in the category parent graph *)

Definition parent_of (db : Db) (id : Z) : option Z :=
  CategoryService.get_by_id db id ≫= cat_parent_id.

(** [target] is met on the parent chain of [id] within [fuel] steps. *)
Fixpoint ancestor (fuel : nat) (db : Db) (id target : Z) : bool :=
  match fuel with
  | O => false
  | S fuel' =>
      match parent_of db id with
      | None => false
      | Some p => bool_decide (p = target) || ancestor fuel' db p target
      end
  end.

(** A chain that returns to its start does so within as many steps as
    there are rows. *)
Definition own_ancestor (db : Db) (id : Z) : bool :=
  ancestor (length (categories db)) db id id.

Definition has_parent_cycle (db : Db) : bool :=
  existsb (λ c, own_ancestor db (cat_id c)) (categories db).

(** ** Sequences of calls *)

(** Posts created one after the other; the slugs they were given. *)
Fixpoint create_posts (slugify : string → string) (db : Db)
    (datas : list (PostCreate * Z)) : result (Db * list string) :=
  match datas with
  | [] => Ok (db, [])
  | (data, author_id) :: datas' =>
      match PostService.create slugify db data author_id with
      | Err e => Err e
      | Ok (db', post) =>
          match create_posts slugify db' datas' with
          | Err e => Err e
          | Ok (db'', slugs) => Ok (db'', post_slug post :: slugs)
          end
      end
  end.

(** Categories created one request after the other; a request that
    raises writes nothing and returns no slug, and the next one goes
    ahead. *)
Fixpoint create_categories (slugify : string → string) (db : Db)
    (datas : list CategoryCreate) : Db * list string :=
  match datas with
  | [] => (db, [])
  | data :: datas' =>
      match CategoryService.create slugify db data with
      | Err _ => create_categories slugify db datas'
      | Ok (db', category) =>
          let '(db'', slugs) := create_categories slugify db' datas' in
          (db'', cat_slug category :: slugs)
      end
  end.

(** One rating request: the rating, the caller's user id if logged in,
    and the caller's address. *)
Record RateCall : Type := mkRateCall {
  rc_rating : Z;
  rc_user_id : option Z;
  rc_ip : string
}.

Fixpoint rate_all (db : Db) (post_id : Z) (calls : list RateCall) : result Db :=
  match calls with
  | [] => Ok db
  | c :: calls' =>
      match rate_post_endpoint db post_id (rc_rating c) (rc_user_id c) (rc_ip c) with
      | Err e => Err e
      | Ok (db', _) => rate_all db' post_id calls'
      end
  end.

(** The identity the specification gives a caller: the user id when
    logged in, the address otherwise. *)
Inductive VoterIdentity : Type :=
  | Authenticated (user_id : Z)
  | Anonymous (ip : string).

Definition voter_identity (c : RateCall) : VoterIdentity :=
  match rc_user_id c with
  | Some u => if truthy (Some u) then Authenticated u else Anonymous (rc_ip c)
  | None => Anonymous (rc_ip c)
  end.

(** Two calls the lookup of [rate_post] cannot tell apart from a re-vote:
    the later one presents the user id or the address of the earlier. *)
Definition clash (earlier later : RateCall) : Prop :=
  (truthy (rc_user_id later) ∧ rc_user_id earlier = rc_user_id later) ∨
  rc_ip earlier = rc_ip later.

Fixpoint clash_free (calls : list RateCall) : Prop :=
  match calls with
  | [] => True
  | c :: calls' => Forall (λ c', ¬ clash c c') calls' ∧ clash_free calls'
  end.

Definition sum_ratings (calls : list RateCall) : Z :=
  foldr (λ c acc, rc_rating c + acc) 0 calls.

Definition mean_rating (calls : list RateCall) : Qc :=
  (Z2Qc (sum_ratings calls) / Z2Qc (Z.of_nat (length calls)))%Qc.

(** Some row of the table carries the slug. *)
Definition held {A : Type} (slug_of : A → string) (rows : list A) (s : string) : Prop :=
  is_Some (head (filter (λ r, slug_of r = s) rows)).

(** What slug assignment promises: the base when it is free, otherwise
    [base-n] for the least positive [n] whose slug is free. *)
Definition first_free_slug (taken : string → Prop) (base slug : string) : Prop :=
  ¬ taken slug ∧
  (¬ taken base → slug = base) ∧
  (taken base →
   ∃ n : N, (0 < n)%N ∧ slug = Slug.candidate base n ∧
            ∀ m : N, (0 < m < n)%N → taken (Slug.candidate base m)).

(** Callers with pairwise different identities. *)
Definition distinct_voters (calls : list RateCall) : Prop :=
  NoDup (voter_identity <$> calls).

Definition in_range (c : RateCall) : Prop := 1 ≤ rc_rating c ≤ 5.

(** ** Concrete stores *)

Definition empty_db : Db := mkDb [] [] [] [] [].

(** One unrated post, and two logged-in users behind one address. *)
Definition one_post_db : Db :=
  mkDb [mkPost 1 "hello" "hello" 1 true 0%Qc 0 []] [] [] [] [].

Definition shared_address_calls : list RateCall :=
  [mkRateCall 5 (Some 1) "10.0.0.7"; mkRateCall 1 (Some 2) "10.0.0.7"].

Definition separate_address_calls : list RateCall :=
  [mkRateCall 5 (Some 1) "10.0.0.7"; mkRateCall 1 (Some 2) "10.0.0.8";
   mkRateCall 3 None "10.0.0.9"].


(** A comment nobody has voted on. *)
Definition fresh_comment : Comment :=
  mkComment 1 "first" 1 None None true false 0 0 0.
Definition one_comment_db : Db := mkDb [] [] [] [fresh_comment] [].

(** Three top-level comments on post 1 (one pinned, one unapproved) and
    two replies to the first. *)
Definition thread_db : Db :=
  mkDb [] [] []
       [mkComment 1 "old" 1 None None true false 0 0 10;
        mkComment 2 "pinned" 1 None None true true 0 0 20;
        mkComment 3 "hidden" 1 None None false false 0 0 30;
        mkComment 4 "reply" 1 None (Some 1) true false 0 0 40;
        mkComment 5 "reply too" 1 None (Some 1) false false 0 0 50;
        mkComment 6 "new" 1 None None true false 0 0 60]
       [].

(** An active root with an inactive child. *)
Definition inactive_child_db : Db :=
  mkDb [] [] [mkCategory 1 "News" "news" None true true 0 0;
              mkCategory 2 "Drafts" "drafts" (Some 1) false true 0 0] [] [].

(** A root category and its child, and two PATCH bodies that only set
    [parent_id]: one to the child, one to the category itself. *)
Definition two_categories_db : Db :=
  mkDb [] [] [mkCategory 1 "News" "news" None true true 0 0;
              mkCategory 2 "Sport" "sport" (Some 1) true true 0 0] [] [].

Definition set_parent (parent_id : Z) : CategoryUpdate :=
  mkCategoryUpdate None (Some (Some parent_id)) None None None.

(** A category that has posts according to its counter, and one that
    has none. *)
Definition counted_db : Db :=
  mkDb [] [] [mkCategory 1 "News" "news" None true true 0 3;
              mkCategory 2 "Sport" "sport" None true true 0 0] [] [].

(** A comment an administrator has yet to approve. *)
Definition pending_comment : Comment := com_set_is_approved fresh_comment false.


(** * Further operations *)

(** ** Tags (app/models/post.py, app/services/category.py) *)

Record Tag : Type := mkTag {
  tag_id : Z;
  tag_name : string;
  tag_slug : string;
  tag_posts_count : Z
}.

(** ORDER BY posts_count DESC. *)
Definition most_used_first (a b : Tag) : Prop :=
  tag_posts_count b ≤ tag_posts_count a.

Global Instance most_used_first_dec : RelDecision most_used_first.
Proof. intros a b. unfold most_used_first. apply _. Defined.

(** The tag service works on the [tags] table alone. *)
Module TagService.

Definition get_by_id (tags : list Tag) (id : Z) : option Tag :=
  Table.get tag_id id tags.

(** The [slug] column is unique. *)
Definition get_by_slug (tags : list Tag) (slug : string) : option Tag :=
  head (filter (λ t, tag_slug t = slug) tags).

Definition get_or_create (slugify : string → string) (tags : list Tag)
    (name : string) : list Tag * Tag :=
  let slug := slugify name in
  match get_by_slug tags slug with
  | Some tag => (tags, tag)
  | None =>
      let tag := mkTag (Table.fresh tag_id tags) name slug 0 in
      (Table.add tag tags, tag)
  end.

Definition get_all (tags : list Tag) (limit : Z) : list Tag :=
  take (Z.to_nat limit) (merge_sort most_used_first tags).

Definition get_popular (tags : list Tag) (limit : Z) : list Tag :=
  take (Z.to_nat limit)
       (merge_sort most_used_first (filter (λ t, tag_posts_count t > 0) tags)).

Definition delete (tags : list Tag) (tag : Tag) : list Tag :=
  Table.remove tag_id (tag_id tag) tags.

End TagService.

(** ** More of the post service (app/services/post.py) *)

(** A PATCH body for a post, read like [CategoryUpdate]: [None] is a
    field the request did not set, [Some None] an explicit null.
    [full_content], [is_featured], [is_pinned] and [allow_comments] are
    columns [Post] above does not keep; they are NOT NULL, so whether the
    body sets them to null decides if the flush goes through.
    [category_ids] is only tested with [is not None]. *)
Record PostUpdate : Type := mkPostUpdate {
  pu_title : option (option string);
  pu_full_content : option (option string);
  pu_is_published : option (option bool);
  pu_is_featured : option (option bool);
  pu_is_pinned : option (option bool);
  pu_allow_comments : option (option bool);
  pu_category_ids : option (list Z)
}.

(** The body sets a NOT NULL column that [Post] does not keep to null. *)
Definition pu_null_column (data : PostUpdate) : Prop :=
  pu_full_content data = Some None ∨ pu_is_featured data = Some None ∨
  pu_is_pinned data = Some None ∨ pu_allow_comments data = Some None.

(** [Result.unique()]: rows of an entity already seen are dropped. *)
Fixpoint unique (seen : list Z) (rows : list Post) : list Post :=
  match rows with
  | [] => []
  | p :: rows' =>
      if decide (post_id p ∈ seen) then unique seen rows'
      else p :: unique (post_id p :: seen) rows'
  end.

Module PostOps.
Section with_slugify.
Variable slugify : string → string.

(** The slug an update writes: see [CategoryService.update_slug].  Of an
    update, what follows keeps the columns of [Post] held here; the
    [tags] of the body go through [_set_tags] below, on the tags table. *)
Definition update_slug (db : Db) (post : Post) (data : PostUpdate) : result string :=
  match pu_title data with
  | None => Ok (post_slug post)
  | Some None => Err TypeError
  | Some (Some title) =>
      let new_slug := slugify title in
      if decide (new_slug ≠ post_slug post) then
        match Slug.loop (S (length (posts db)))
                (λ s, match PostService.get_by_slug db s with
                      | Some existing => bool_decide (post_id existing ≠ post_id post)
                      | None => false
                      end)
                new_slug new_slug 1%N with
        | Some slug => Ok slug
        | None => Err OutOfFuel
        end
      else Ok (post_slug post)
  end.

(** A null written to a NOT NULL column is refused when the session
    flushes, and nothing of the update is kept. *)
Definition update (db : Db) (post : Post) (data : PostUpdate)
    : result (Db * Post) :=
  match update_slug db post data with
  | Err e => Err e
  | Ok slug =>
      match written (post_title post) (pu_title data),
            written (post_is_published post) (pu_is_published data) with
      | Some title, Some is_published =>
          if decide (pu_null_column data) then Err IntegrityError else
          let post' :=
            mkPost (post_id post) title slug (post_author_id post) is_published
                   (post_rating post) (post_votes_count post) (post_categories post) in
          let db' := set_posts db (Table.put post_id post' (posts db)) in
          match pu_category_ids data with
          | Some category_ids => Ok (PostService._set_categories db' post' category_ids)
          | None => Ok (db', post')
          end
      | _, _ => Err IntegrityError
      end
  end.

(** The loop of [_set_tags]: each name gets the tag that carries its
    slug, created on the spot when there is none.  The list returned is
    what [post.tags] is set to. *)
Fixpoint _set_tags (tags : list Tag) (tag_names : list string)
    : list Tag * list Tag :=
  match tag_names with
  | [] => (tags, [])
  | name :: tag_names' =>
      let '(tags1, tag) := TagService.get_or_create slugify tags name in
      let '(tags2, rest) := _set_tags tags1 tag_names' in
      (tags2, tag :: rest)
  end.

End with_slugify.

(** [get_related]: other published posts; when the post has categories,
    joined with [post_categories] on these categories (one row for each
    category shared), cut at [limit], then made unique. *)
Definition get_related (db : Db) (post : Post) (limit : Z) : list Post :=
  let category_ids := post_categories post in
  let others :=
    filter (λ p, post_id p ≠ post_id post ∧ post_is_published p = true) (posts db) in
  let rows :=
    match category_ids with
    | [] => others
    | _ :: _ =>
        p ← others; (λ _, p) <$> filter (λ c, c ∈ category_ids) (post_categories p)
    end in
  unique [] (take (Z.to_nat limit) rows).

End PostOps.

(** ** More of the comment service (app/services/comment.py) *)

(** ORDER BY created_at DESC. *)
Definition newest_first (a b : Comment) : Prop :=
  com_created_at b ≤ com_created_at a.

Global Instance newest_first_dec : RelDecision newest_first.
Proof. intros a b. unfold newest_first. apply _. Defined.

Module CommentOps.

Definition get_latest (db : Db) (limit : Z) : list Comment :=
  take (Z.to_nat limit)
       (merge_sort newest_first (filter (λ c, com_is_approved c = true) (comments db))).

Definition get_by_user (db : Db) (user_id page per_page : Z)
    : list Comment * Z :=
  let rows := filter (λ c, com_author_id c = Some user_id) (comments db) in
  let total := Z.of_nat (length rows) in
  let offset := (page - 1) * per_page in
  (take (Z.to_nat per_page) (drop (Z.to_nat offset) (merge_sort newest_first rows)),
   total).

Definition get_pending_count (db : Db) : Z :=
  Z.of_nat (length (filter (λ c, com_is_approved c = false) (comments db))).

End CommentOps.

(** ** More of the category service (app/services/category.py) *)

Module CategoryOps.

Definition get_all (db : Db) (active_only : bool) : list Category :=
  merge_sort CategoryService.by_position_name
    (filter (λ c, active_only → cat_is_active c) (categories db)).

Definition get_menu_categories (db : Db) : list (Category * list Category) :=
  let rows :=
    filter (λ c, cat_is_active c = true ∧ cat_show_in_menu c = true ∧
                 cat_parent_id c = None) (categories db) in
  (λ c, (c, CategoryService.children db c))
    <$> merge_sort CategoryService.by_position_name rows.

End CategoryOps.

(** ** Comment endpoints (app/api/v1/comments.py) *)

Module CommentsApi.

(** [pages = (total + per_page - 1) // per_page], as in
    [get_comments_for_post]. *)
Definition page_count (total per_page : Z) : Z :=
  (total + per_page - 1) `div` per_page.

(** POST /comments/{comment_id}/vote.  The body is a
    [CommentVoteRequest], whose [vote] is declared with [ge=-1, le=1].
    The answer carries the two counters and [user_vote]. *)
Definition vote_comment (db : Db) (comment_id vote : Z)
    (user_id : option Z) (ip : string) : result (Db * (Z * Z * option Z)) :=
  if decide (-1 ≤ vote ≤ 1) then
    match CommentService.get_by_id db comment_id with
    | None => Err (HTTPException HTTP_404_NOT_FOUND)
    | Some comment =>
        match CommentService.vote db comment vote user_id ip with
        | Err e => Err e
        | Ok (db', _, (likes, dislikes)) =>
            Ok (db', (likes, dislikes, if decide (vote ≠ 0) then Some vote else None))
        end
    end
  else Err (HTTPException HTTP_422_UNPROCESSABLE).

End CommentsApi.

(** ** Counters against rows *)

(** How many rows record the vote [v] on a comment. *)
Definition count_votes (rows : list CommentVote) (comment_id v : Z) : Z :=
  Z.of_nat (length (filter (λ r, cv_comment_id r = comment_id ∧ cv_vote r = v) rows)).

(** The counters of every comment agree with the vote rows, which hold
    likes and dislikes only, under unique primary keys. *)
Record votes_consistent (db : Db) : Prop := mkVotesConsistent {
  vc_comment_keys : NoDup (com_id <$> comments db);
  vc_vote_keys : NoDup (cv_id <$> comment_votes db);
  vc_vote_values : ∀ r, r ∈ comment_votes db → cv_vote r = 1 ∨ cv_vote r = -1;
  vc_tally : ∀ c, c ∈ comments db →
      com_likes_count c = count_votes (comment_votes db) (com_id c) 1 ∧
      com_dislikes_count c = count_votes (comment_votes db) (com_id c) (-1)
}.

(** The rating rows of a post, and their sum. *)
Definition ratings_of (db : Db) (post_id : Z) : list PostRating :=
  filter (λ r, pr_post_id r = post_id) (post_ratings db).

Definition sum_rows (rows : list PostRating) : Z :=
  foldr (λ r acc, pr_rating r + acc) 0 rows.

(** The vote count of every post is the number of its rating rows and
    its rating is their mean (times the count, their sum), under unique
    primary keys. *)
Record ratings_consistent (db : Db) : Prop := mkRatingsConsistent {
  rc_post_keys : NoDup (post_id <$> posts db);
  rc_rating_keys : NoDup (pr_id <$> post_ratings db);
  rc_mean : ∀ p, p ∈ posts db →
      post_votes_count p = Z.of_nat (length (ratings_of db (post_id p))) ∧
      (post_rating p * Z2Qc (post_votes_count p))%Qc
        = Z2Qc (sum_rows (ratings_of db (post_id p)))
}.

(** ** The parent graph as a relation *)

(** [descends db a b]: [b] is met on the parent chain of [a]. *)
Inductive descends (db : Db) : Z → Z → Prop :=
  | descends_parent a b :
      parent_of db a = Some b → descends db a b
  | descends_further a b c :
      parent_of db a = Some b → descends db b c → descends db a c.

Definition acyclic (db : Db) : Prop := ∀ id, ¬ descends db id id.

(** Referential integrity of [parent_id]. *)
Definition parents_exist (db : Db) : Prop :=
  ∀ c p, c ∈ categories db → cat_parent_id c = Some p →
         is_Some (CategoryService.get_by_id db p).

(** ** More concrete stores *)

Definition two_posts_db : Db :=
  mkDb [mkPost 1 "Hello" "hello" 1 true 0%Qc 0 [];
        mkPost 2 "World" "world" 1 true 0%Qc 0 [1]] []
       [mkCategory 1 "News" "news" None true true 0 0] [] [].

Definition pending_db : Db := mkDb [] [] [] [pending_comment] [].

(** * Properties *)

(** ** Tables *)

Lemma next_id_gt (ids : list Z) (x : Z) : x ∈ ids → x < next_id ids.
Proof.
  unfold next_id. induction ids as [|y ids IH]; simpl.
  - intros H. inversion H.
  - intros [->|H]%elem_of_cons; [lia|]. specialize (IH H). lia.
Qed.

Section table_facts.
Context {A : Type} (key : A → Z).
Implicit Types (t : list A) (r : A).

Lemma fresh_ne t r : r ∈ t → key r ≠ Table.fresh key t.
Proof.
  intros Hr Heq. unfold Table.fresh in Heq.
  assert (key r < next_id (key <$> t)); [|lia].
  apply next_id_gt, list_elem_of_fmap. eauto.
Qed.

Lemma get_Some t id r : Table.get key id t = Some r → r ∈ t ∧ key r = id.
Proof.
  unfold Table.get. intros H%head_Some_elem_of.
  apply list_elem_of_filter in H. tauto.
Qed.

Lemma get_None t id : Table.get key id t = None ↔ ∀ r, r ∈ t → key r ≠ id.
Proof.
  unfold Table.get. rewrite head_None. split.
  - intros H r Hr Hk.
    by apply (filter_nil_not_elem_of (λ r, key r = id) t r H Hk).
  - intros H. induction t as [|x t IH]; [done|].
    rewrite filter_cons_False.
    + apply IH. intros r Hr. apply H. by right.
    + apply H. by left.
Qed.

Lemma put_absent t row : (∀ r, r ∈ t → key r ≠ key row) → Table.put key row t = t.
Proof.
  intros H. unfold Table.put. induction t as [|x t IH]; [done|]. simpl.
  rewrite decide_False by (apply H; by left).
  f_equal. apply IH. intros r Hr. apply H. by right.
Qed.

Lemma put_same t row : row ∈ t → NoDup (key <$> t) → Table.put key row t = t.
Proof.
  unfold Table.put. induction t as [|x t IH]; [done|].
  rewrite fmap_cons, NoDup_cons. intros Hin [Hx Hnd]. simpl.
  apply elem_of_cons in Hin as [->|Hin].
  - rewrite decide_True by done. f_equal.
    apply (put_absent t x). intros r Hr Hk. apply Hx.
    rewrite <- Hk. apply list_elem_of_fmap. eauto.
  - rewrite decide_False.
    + f_equal. by apply IH.
    + intros Hk. apply Hx. rewrite Hk. apply list_elem_of_fmap. eauto.
Qed.

Lemma get_put t id r row :
  Table.get key id t = Some r → key row = id →
  Table.get key id (Table.put key row t) = Some row.
Proof.
  unfold Table.get, Table.put. intros H <-.
  induction t as [|x t IH]; [done|]. simpl in *.
  destruct (decide (key x = key row)) as [Hx|Hx].
  - by rewrite filter_cons_True.
  - rewrite filter_cons_False in H by done.
    rewrite filter_cons_False by done. by apply IH.
Qed.

Lemma get_put_ne t id row :
  key row ≠ id → Table.get key id (Table.put key row t) = Table.get key id t.
Proof.
  unfold Table.get, Table.put. intros Hne.
  induction t as [|x t IH]; [done|]. simpl.
  destruct (decide (key x = key row)) as [Hx|Hx].
  - rewrite !filter_cons_False by congruence. done.
  - destruct (decide (key x = id)).
    + by rewrite !filter_cons_True.
    + by rewrite !filter_cons_False.
Qed.

Lemma put_keys t row : key <$> Table.put key row t = key <$> t.
Proof.
  unfold Table.put. induction t as [|x t IH]; [done|]. csimpl.
  rewrite IH. by destruct (decide (key x = key row)) as [->|].
Qed.

Lemma elem_of_put t row r :
  r ∈ Table.put key row t → r = row ∨ (r ∈ t ∧ key r ≠ key row).
Proof.
  unfold Table.put. intros (x & -> & Hx)%list_elem_of_fmap.
  destruct (decide (key x = key row)); auto.
Qed.

End table_facts.

(** ** The slug loop *)

Lemma candidate_ne_base base n : Slug.candidate base n ≠ base.
Proof.
  unfold Slug.candidate.
  induction base as [|a base IH]; simpl; [done|].
  intros [= H]. by apply IH.
Qed.

Lemma nth_candidate_inj base : Inj (=) (=) (Slug.nth_candidate base).
Proof.
  intros [|i] [|j] H; simpl in H; try done.
  - symmetry in H. by apply candidate_ne_base in H.
  - by apply candidate_ne_base in H.
  - unfold Slug.candidate in H.
    apply (inj (String.app base)), (inj (String.app "-")), (inj pretty) in H.
    lia.
Qed.

(** What the loop returns is the first candidate, from where it stands,
    that is not taken. *)
Lemma loop_first_free fuel taken base k s :
  Slug.loop fuel taken base (Slug.nth_candidate base k) (N.of_nat (S k)) = Some s →
  ∃ j, (k ≤ j)%nat ∧ s = Slug.nth_candidate base j ∧ taken s = false ∧
       ∀ i, (k ≤ i < j)%nat → taken (Slug.nth_candidate base i) = true.
Proof.
  revert k. induction fuel as [|fuel IH]; intros k; simpl; [done|].
  destruct (taken (Slug.nth_candidate base k)) eqn:Hk.
  - replace (N.of_nat (S k) + 1)%N with (N.of_nat (S (S k))) by lia.
    change (Slug.candidate base (N.of_nat (S k)))
      with (Slug.nth_candidate base (S k)).
    intros (j & Hj & -> & Hfree & Hall)%IH.
    exists j. split_and!; [lia|done|done|].
    intros i Hi. destruct (decide (i = k)) as [->|]; [done|].
    apply Hall. lia.
  - intros [= <-]. exists k. split_and!; [lia|done|done|]. intros; lia.
Qed.

(** With a free candidate within reach of the fuel, the loop returns. *)
Lemma loop_returns fuel taken base k j :
  (k ≤ j < k + fuel)%nat → taken (Slug.nth_candidate base j) = false →
  is_Some (Slug.loop fuel taken base (Slug.nth_candidate base k) (N.of_nat (S k))).
Proof.
  revert k. induction fuel as [|fuel IH]; intros k Hj Hfree; simpl; [lia|].
  destruct (taken (Slug.nth_candidate base k)) eqn:Hk; [|eauto].
  replace (N.of_nat (S k) + 1)%N with (N.of_nat (S (S k))) by lia.
  change (Slug.candidate base (N.of_nat (S k)))
    with (Slug.nth_candidate base (S k)).
  apply IH; [|done].
  destruct (decide (j = k)) as [->|]; [congruence|lia].
Qed.

(** Pigeonhole: when every taken slug is in [held], one of the first
    [S (length held)] candidates is free. *)
Lemma free_candidate_exists (taken : string → bool) (held : list string) base :
  (∀ s, taken s = true → s ∈ held) →
  ∃ j, (j < S (length held))%nat ∧ taken (Slug.nth_candidate base j) = false.
Proof.
  intros Hheld.
  set (cands := Slug.nth_candidate base <$> seq 0 (S (length held))).
  destruct (decide (Forall (λ s, taken s = true) cands)) as [Hall|Hex].
  - exfalso.
    assert (length cands ≤ length held)%nat as Hlen.
    { apply submseteq_length, NoDup_submseteq.
      - pose proof (nth_candidate_inj base). apply (NoDup_fmap_2 _), NoDup_seq.
      - intros s Hs. apply Hheld. by apply (proj1 (Forall_forall _ _) Hall). }
    unfold cands in Hlen. rewrite length_fmap, length_seq in Hlen. lia.
  - apply not_Forall_Exists in Hex; [|intros s; apply _].
    apply Exists_exists in Hex as (s & Hs & Hfree).
    apply list_elem_of_fmap in Hs as (j & -> & Hj).
    apply elem_of_seq in Hj. exists j. split; [lia|].
    simpl in Hfree. by destruct (taken _).
Qed.

Lemma loop_total (taken : string → bool) (held : list string) base :
  (∀ s, taken s = true → s ∈ held) →
  is_Some (Slug.loop (S (length held)) taken base base 1%N).
Proof.
  intros Hheld.
  destruct (free_candidate_exists taken held base Hheld) as (j & Hj & Hfree).
  apply (loop_returns _ taken base 0%nat j); [lia|done].
Qed.

Section slug_facts.
Context {A : Type} (slug_of : A → string) (rows : list A).

Lemma held_elem_of s : held slug_of rows s ↔ s ∈ slug_of <$> rows.
Proof.
  unfold held. rewrite head_is_Some, list_elem_of_fmap. split.
  - intros Hne. destruct (filter _ rows) as [|r l] eqn:Hf; [done|].
    assert (r ∈ filter (λ r, slug_of r = s) rows) as Hr by (rewrite Hf; left).
    apply list_elem_of_filter in Hr as [Hs Hr]. eauto.
  - intros (r & -> & Hr) Hnil.
    by apply (filter_nil_not_elem_of (λ r', slug_of r' = slug_of r) rows r Hnil).
Qed.

(** The loop run by the creation paths returns, and what it returns is
    the first free slug. *)
Lemma unique_slug_spec (taken : string → bool) base :
  (∀ s, taken s = true → held slug_of rows s) →
  ∃ slug, Slug.loop (S (length rows)) taken base base 1%N = Some slug ∧
          first_free_slug (λ s, taken s = true) base slug.
Proof.
  intros Htaken.
  assert (is_Some (Slug.loop (S (length rows)) taken base base 1%N)) as [slug Hloop].
  { rewrite <- (length_fmap slug_of rows). apply loop_total.
    intros s Hs. by apply held_elem_of, Htaken. }
  exists slug. split; [done|].
  apply (loop_first_free _ taken base 0%nat) in Hloop
    as (j & _ & -> & Hfree & Hall).
  split; [by rewrite Hfree|]. destruct j as [|j]; simpl.
  - split; [done|]. simpl in Hfree. congruence.
  - split.
    + intros Hbase. specialize (Hall 0%nat). simpl in Hall.
      destruct Hbase. apply Hall. lia.
    + intros _. exists (N.of_nat (S j)). split_and!; [lia|done|].
      intros m Hm. specialize (Hall (N.to_nat m)).
      destruct (N.to_nat m) as [|i] eqn:Hi; [lia|]. simpl in Hall.
      rewrite <- Hi, N2Nat.id in Hall. apply Hall. lia.
Qed.

End slug_facts.

Lemma put_add_fresh {A : Type} (key : A → Z) (t : list A) (row row' : A) :
  key row = Table.fresh key t → key row' = key row →
  Table.put key row' (Table.add row t) = t ++ [row'].
Proof.
  intros Hfresh Hkey. unfold Table.add, Table.put.
  rewrite fmap_app. f_equal.
  - apply (put_absent key). intros r Hr. rewrite Hkey, Hfresh. by apply fresh_ne.
  - simpl. by rewrite decide_True.
Qed.

Lemma remove_absent {A : Type} (key : A → Z) (t : list A) (id : Z) :
  (∀ r, r ∈ t → key r ≠ id) → Table.remove key id t = t.
Proof.
  intros Hne. unfold Table.remove. induction t as [|x t IH]; [done|].
  rewrite filter_cons_True by (apply Hne; left).
  f_equal. apply IH. intros r Hr. apply Hne. by right.
Qed.

Lemma remove_add_fresh {A : Type} (key : A → Z) (t : list A) (row : A) :
  key row = Table.fresh key t → Table.remove key (key row) (Table.add row t) = t.
Proof.
  intros Hk. unfold Table.remove, Table.add. rewrite filter_app.
  rewrite (filter_cons_False _ row) by (intros H; by apply H).
  rewrite filter_nil, app_nil_r. apply (remove_absent key).
  intros r Hr. rewrite Hk. by apply fresh_ne.
Qed.

Lemma first_free_slug_decide (P : string → Prop) `{∀ s, Decision (P s)} base slug :
  first_free_slug (λ s, bool_decide (P s) = true) base slug →
  first_free_slug P base slug.
Proof.
  intros (H1 & H2 & H3). split_and!.
  - intros HP. apply H1. by apply bool_decide_eq_true.
  - intros HP. apply H2. intros HP'. apply HP. by apply bool_decide_eq_true in HP'.
  - intros HP. destruct H3 as (n & ? & ? & Hall); [by apply bool_decide_eq_true|].
    exists n. split_and!; [done..|].
    intros m Hm. specialize (Hall m Hm). by apply bool_decide_eq_true in Hall.
Qed.

(** ** Creating posts and categories *)

Section create_facts.
Variable slugify : string → string.

Lemma post_create_spec db data author_id :
  ∃ db' post,
    PostService.create slugify db data author_id = Ok (db', post) ∧
    first_free_slug (λ s, is_Some (PostService.get_by_slug db s))
                    (slugify (pc_title data)) (post_slug post) ∧
    post_slug <$> posts db' = (post_slug <$> posts db) ++ [post_slug post] ∧
    categories db' = categories db.
Proof.
  unfold PostService.create.
  destruct (unique_slug_spec post_slug (posts db)
              (λ s, bool_decide (is_Some (PostService.get_by_slug db s)))
              (slugify (pc_title data))) as (slug & -> & Hfree).
  { intros s Hs. by apply bool_decide_eq_true in Hs. }
  apply first_free_slug_decide in Hfree.
  destruct (pc_category_ids data) as [|i ids] eqn:Hids.
  - eexists _, _. split; [done|]. simpl. split_and!; [done| |done].
    unfold Table.add. by rewrite fmap_app.
  - eexists _, _. split; [done|]. simpl. split_and!; [done| |done].
    rewrite put_add_fresh by done. by rewrite fmap_app.
Qed.

Lemma category_create_refused db data :
  cc_name data ∈ cat_name <$> categories db →
  CategoryService.create slugify db data = Err IntegrityError.
Proof.
  intros Hname. unfold CategoryService.create.
  destruct (unique_slug_spec cat_slug (categories db)
              (λ s, bool_decide (is_Some (CategoryService.get_by_slug db s)))
              (slugify (cc_name data))) as (slug & -> & _).
  { intros s Hs. by apply bool_decide_eq_true in Hs. }
  by destruct (decide (cc_name data ∈ cat_name <$> categories db)).
Qed.

Lemma category_create_spec db data :
  cc_name data ∉ cat_name <$> categories db →
  ∃ db' category,
    CategoryService.create slugify db data = Ok (db', category) ∧
    first_free_slug (λ s, is_Some (CategoryService.get_by_slug db s))
                    (slugify (cc_name data)) (cat_slug category) ∧
    cat_slug <$> categories db' = (cat_slug <$> categories db) ++ [cat_slug category] ∧
    cat_name <$> categories db' = (cat_name <$> categories db) ++ [cc_name data].
Proof.
  intros Hname. unfold CategoryService.create.
  destruct (unique_slug_spec cat_slug (categories db)
              (λ s, bool_decide (is_Some (CategoryService.get_by_slug db s)))
              (slugify (cc_name data))) as (slug & -> & Hfree).
  { intros s Hs. by apply bool_decide_eq_true in Hs. }
  destruct (decide (cc_name data ∈ cat_name <$> categories db)); [done|].
  eexists _, _. split; [done|]. simpl. split_and!.
  - by apply first_free_slug_decide in Hfree.
  - unfold Table.add. by rewrite fmap_app.
  - unfold Table.add. by rewrite fmap_app.
Qed.

Lemma create_posts_spec datas : ∀ db,
  ∃ db' slugs,
    create_posts slugify db datas = Ok (db', slugs) ∧
    length slugs = length datas ∧
    NoDup slugs ∧
    (∀ s, s ∈ slugs → s ∉ post_slug <$> posts db).
Proof.
  induction datas as [|[data author_id] datas IH]; intros db; simpl.
  - eexists _, _. split; [done|]. split_and!; [done|constructor|].
    intros s Hs. inversion Hs.
  - destruct (post_create_spec db data author_id)
      as (db1 & post & -> & (Hfree & _) & Hslugs & _).
    destruct (IH db1) as (db2 & slugs & -> & Hlen & Hnd & Hnew).
    eexists _, _. split; [done|]. simpl. split_and!.
    + by rewrite Hlen.
    + constructor; [|done]. intros Hin. apply (Hnew _ Hin).
      rewrite Hslugs, elem_of_app, list_elem_of_singleton. by right.
    + intros s [->|Hs]%elem_of_cons.
      * intros Hin. apply Hfree. by apply (held_elem_of post_slug).
      * intros Hin. apply (Hnew _ Hs). rewrite Hslugs, elem_of_app. by left.
Qed.

Lemma create_categories_spec datas : ∀ db,
  ∃ db' slugs,
    create_categories slugify db datas = (db', slugs) ∧
    (length slugs ≤ length datas)%nat ∧
    NoDup slugs ∧
    (∀ s, s ∈ slugs → s ∉ cat_slug <$> categories db) ∧
    (NoDup (cc_name <$> datas) →
     (∀ data, data ∈ datas → cc_name data ∉ cat_name <$> categories db) →
     length slugs = length datas).
Proof.
  induction datas as [|data datas IH]; intros db; cbn [create_categories].
  - eexists _, _. split; [done|]. split_and!; [done|constructor| |done].
    intros s Hs. inversion Hs.
  - destruct (decide (cc_name data ∈ cat_name <$> categories db)) as [Hheld|Hnew].
    + rewrite (category_create_refused db data Hheld).
      destruct (IH db) as (db2 & slugs & -> & Hlen & Hnd & Hfresh & _).
      exists db2, slugs. split; [done|]. split_and!; [simpl; lia|done|done|].
      intros _ Hnames. destruct (Hnames data); [left|done].
    + destruct (category_create_spec db data Hnew)
        as (db1 & category & -> & (Hfree & _) & Hslugs & Hnames1).
      destruct (IH db1) as (db2 & slugs & -> & Hlen & Hnd & Hfresh & Hall).
      eexists _, _. split; [done|]. cbn [length]. split_and!.
      * lia.
      * constructor; [|done]. intros Hin. apply (Hfresh _ Hin).
        rewrite Hslugs, elem_of_app, list_elem_of_singleton. by right.
      * intros s [->|Hs]%elem_of_cons.
        -- intros Hin. apply Hfree. by apply (held_elem_of cat_slug).
        -- intros Hin. apply (Hfresh _ Hs). rewrite Hslugs, elem_of_app. by left.
      * rewrite fmap_cons, NoDup_cons. intros [Hhead Htail] Hnames.
        f_equal. apply Hall; [done|].
        intros d Hd. rewrite Hnames1, elem_of_app, list_elem_of_singleton.
        intros [Hin|Heq].
        -- apply (Hnames d); [by right|done].
        -- apply Hhead. rewrite <- Heq. apply list_elem_of_fmap. eauto.
Qed.

End create_facts.

(** C4. Slug assignment on creation.  Creating a post always returns.
    Creating a category returns unless a row already carries the name,
    which the unique index on [name] refuses.  The slug of what is
    created is the slugified name when no row holds it, and otherwise
    [base-N] for the least positive [N] whose slug no row holds.
    Creations in a row (with the same base or not, nothing deleted in
    between) are given pairwise distinct slugs, one for each post and
    one for each category whose name is new. *)
Theorem slug_assignment_on_create (slugify : string → string) :
  (∀ db data author_id, ∃ db' post,
      PostService.create slugify db data author_id = Ok (db', post) ∧
      first_free_slug (λ s, is_Some (PostService.get_by_slug db s))
                      (slugify (pc_title data)) (post_slug post)) ∧
  (∀ db data,
      cc_name data ∉ cat_name <$> categories db →
      ∃ db' category,
        CategoryService.create slugify db data = Ok (db', category) ∧
        first_free_slug (λ s, is_Some (CategoryService.get_by_slug db s))
                        (slugify (cc_name data)) (cat_slug category)) ∧
  (∀ db data,
      cc_name data ∈ cat_name <$> categories db →
      CategoryService.create slugify db data = Err IntegrityError) ∧
  (∀ db datas, ∃ db' slugs,
      create_posts slugify db datas = Ok (db', slugs) ∧
      length slugs = length datas ∧ NoDup slugs) ∧
  (∀ db datas, ∃ db' slugs,
      create_categories slugify db datas = (db', slugs) ∧
      NoDup slugs ∧
      (NoDup (cc_name <$> datas) →
       (∀ data, data ∈ datas → cc_name data ∉ cat_name <$> categories db) →
       length slugs = length datas)).
Proof.
  split_and!.
  - intros db data author_id.
    destruct (post_create_spec slugify db data author_id)
      as (db' & post & Hc & Hfree & _). eauto.
  - intros db data Hname.
    destruct (category_create_spec slugify db data Hname)
      as (db' & category & Hc & Hfree & _). eauto.
  - intros db data. apply category_create_refused.
  - intros db datas.
    destruct (create_posts_spec slugify datas db)
      as (db' & slugs & Hc & Hlen & Hnd & _). eauto.
  - intros db datas.
    destruct (create_categories_spec slugify datas db)
      as (db' & slugs & Hc & _ & Hnd & _ & Hall). eauto.
Qed.

Example create_posts_same_title :
  create_posts (λ s, s) empty_db
    [(mkPostCreate "news" true [], 1); (mkPostCreate "news" true [], 1);
     (mkPostCreate "news" true [], 2)]
  = Ok (mkDb [mkPost 1 "news" "news" 1 true 0%Qc 0 [];
              mkPost 2 "news" "news-1" 1 true 0%Qc 0 [];
              mkPost 3 "news" "news-2" 2 true 0%Qc 0 []] [] [] [] [],
        ["news"; "news-1"; "news-2"]).
Proof. vm_compute. reflexivity. Qed.

(** Three categories whose names slugify to one base, and a fourth
    request that repeats a name. *)
Example create_categories_same_base :
  create_categories (λ _, "news") empty_db
    [mkCategoryCreate "News" None true true 0;
     mkCategoryCreate "NEWS" None true true 0;
     mkCategoryCreate "News" None true true 0;
     mkCategoryCreate "news!" None true true 0]
  = (mkDb [] [] [mkCategory 1 "News" "news" None true true 0 0;
                 mkCategory 2 "NEWS" "news-1" None true true 0 0;
                 mkCategory 3 "news!" "news-2" None true true 0 0] [] [],
     ["news"; "news-1"; "news-2"]).
Proof. vm_compute. reflexivity. Qed.

(** ** Voting on a comment *)

Lemma filter_none {A : Type} (P : A → Prop) `{∀ x, Decision (P x)} (l : list A) :
  (∀ x, x ∈ l → ¬ P x) → filter P l = [].
Proof.
  induction l as [|x l IH]; intros Hl; [done|].
  rewrite filter_cons_False by (apply Hl; left).
  apply IH. intros y Hy. apply Hl. by right.
Qed.

Section vote_facts.
Variables (db : Db) (comment : Comment) (user_id : option Z) (ip : string).
Hypothesis no_rows : ∀ r, r ∈ comment_votes db → cv_comment_id r ≠ com_id comment.

Lemma vote_lookup_none :
  filter (λ r, cv_comment_id r = com_id comment ∧
               CommentService.same_voter user_id ip r) (comment_votes db) = [].
Proof. apply filter_none. intros r Hr [Hc _]. by apply (no_rows r). Qed.

Lemma vote_lookup_own i v likes dislikes :
  let row := mkCommentVote i (com_id comment) user_id ip v in
  filter (λ r, cv_comment_id r = com_id (com_set_counts comment likes dislikes) ∧
               CommentService.same_voter user_id ip r)
         (comment_votes db ++ [row]) = [row].
Proof.
  intros row. cbn [com_id com_set_counts]. rewrite filter_app, vote_lookup_none. simpl.
  rewrite filter_cons_True; [done|].
  split; [done|]. by right.
Qed.

(** A first like inserts the caller's row and counts it. *)
Lemma first_like :
  CommentService.vote db comment 1 user_id ip =
  Ok (CommentService.flush
        (set_comment_votes db
           (comment_votes db ++
            [mkCommentVote (Table.fresh cv_id (comment_votes db))
                           (com_id comment) user_id ip 1]))
        (com_set_counts comment (com_likes_count comment + 1)
                        (com_dislikes_count comment)),
      com_set_counts comment (com_likes_count comment + 1)
                     (com_dislikes_count comment),
      (com_likes_count comment + 1, com_dislikes_count comment)).
Proof.
  unfold CommentService.vote. rewrite vote_lookup_none. simpl.
  reflexivity.
Qed.

(** A like, then the vote [v] of the same caller: the counters of the
    object, the comment rows and the vote rows the two calls leave. *)
Lemma like_then (v : Z) :
  ∃ db' comment',
    CommentService.vote_seq db comment [1; v] user_id ip = Ok (db', comment') ∧
    com_likes_count comment' =
      (if decide (v = 0) then com_likes_count comment
       else if decide (v = 1) then com_likes_count comment + 1
       else com_likes_count comment) ∧
    com_dislikes_count comment' =
      (if decide (v = 0) then com_dislikes_count comment
       else if decide (v = 1) then com_dislikes_count comment
       else com_dislikes_count comment + 1) ∧
    com_id comment' = com_id comment ∧
    (∃ liked, com_id liked = com_id comment ∧
       comments db' = Table.put com_id comment' (Table.put com_id liked (comments db))) ∧
    comment_votes db' =
      (if decide (v = 0) then comment_votes db
       else comment_votes db ++
            [mkCommentVote (Table.fresh cv_id (comment_votes db))
                           (com_id comment) user_id ip v]).
Proof.
  unfold CommentService.vote_seq. rewrite first_like.
  unfold CommentService.vote at 1.
  cbn [comment_votes CommentService.flush set_comment_votes set_comments].
  rewrite vote_lookup_own. cbn [scalar_one_or_none cv_vote cv_id].
  set (row := mkCommentVote (Table.fresh cv_id (comment_votes db))
                            (com_id comment) user_id ip 1).
  change (comment_votes db ++ [row]) with (Table.add row (comment_votes db)).
  assert (Table.remove cv_id (Table.fresh cv_id (comment_votes db))
            (Table.add row (comment_votes db)) = comment_votes db) as Hremove.
  { by apply (remove_add_fresh cv_id (comment_votes db) row). }
  assert (Table.put cv_id (cv_set_vote row v) (Table.add row (comment_votes db))
          = comment_votes db ++
            [mkCommentVote (Table.fresh cv_id (comment_votes db))
                           (com_id comment) user_id ip v]) as Hput.
  { by apply (put_add_fresh cv_id (comment_votes db) row). }
  rewrite Hremove, Hput.
  destruct (decide (v = 0)) as [->|Hv0].
  - eexists _, _. split; [reflexivity|].
    simpl.
    split_and!; [lia|lia|done| |done]. eexists. split; [|reflexivity]. done.
  - destruct (decide (1 ≠ v)) as [Hv1|Hv1].
    + destruct (decide (v = 1)) as [->|_]; [done|].
      eexists _, _. split; [reflexivity|].
      simpl.
      split_and!; [lia|lia|done| |done]. eexists. split; [|reflexivity]. done.
    + assert (v = 1) as -> by (destruct (decide (1 = v)); [done|by destruct Hv1]).
      eexists _, _. split; [reflexivity|].
      simpl.
      split_and!; [lia|lia|done| |done]. eexists. split; [|reflexivity]. done.
Qed.

(** What the two calls leave in the comment table: the row of the
    comment, when there is one, is the object returned, and every other
    row is as it was. *)
Lemma put_twice_reads (comment' liked : Comment) (rows : list Comment) :
  com_id comment' = com_id comment → com_id liked = com_id comment →
  (is_Some (Table.get com_id (com_id comment) rows) →
   Table.get com_id (com_id comment) (Table.put com_id comment' (Table.put com_id liked rows))
   = Some comment') ∧
  (∀ id, id ≠ com_id comment →
     Table.get com_id id (Table.put com_id comment' (Table.put com_id liked rows))
     = Table.get com_id id rows).
Proof.
  intros Hc Hl. split.
  - intros [stored Hget].
    apply (get_put com_id _ _ liked); [|done].
    by apply (get_put com_id _ _ stored).
  - intros id Hid. rewrite !get_put_ne by congruence. done.
Qed.

End vote_facts.

(** C3. On a comment without likes, dislikes or vote rows, one caller
    voting [+1, +1] leaves one like and one row, a like; [+1, -1] leaves
    no like, one dislike and one row, a dislike (the row of the like,
    flipped); [+1, 0] leaves neither like nor dislike and no row.  The
    counters are those of the object returned and, when the comment is
    in the table, of its row there; the vote table is what it was except
    for that one row, and every other comment is untouched. *)
Theorem vote_twice (db : Db) (comment : Comment) (user_id : option Z) (ip : string) :
  com_likes_count comment = 0 →
  com_dislikes_count comment = 0 →
  (∀ r, r ∈ comment_votes db → cv_comment_id r ≠ com_id comment) →
  (∃ db' comment',
      CommentService.vote_seq db comment [1; 1] user_id ip = Ok (db', comment') ∧
      com_likes_count comment' = 1 ∧ com_dislikes_count comment' = 0 ∧
      comment_votes db' =
        comment_votes db ++ [mkCommentVote (Table.fresh cv_id (comment_votes db))
                                           (com_id comment) user_id ip 1] ∧
      (is_Some (CommentService.get_by_id db (com_id comment)) →
       CommentService.get_by_id db' (com_id comment) = Some comment') ∧
      (∀ id, id ≠ com_id comment →
         CommentService.get_by_id db' id = CommentService.get_by_id db id)) ∧
  (∃ db' comment',
      CommentService.vote_seq db comment [1; -1] user_id ip = Ok (db', comment') ∧
      com_likes_count comment' = 0 ∧ com_dislikes_count comment' = 1 ∧
      comment_votes db' =
        comment_votes db ++ [mkCommentVote (Table.fresh cv_id (comment_votes db))
                                           (com_id comment) user_id ip (-1)] ∧
      (is_Some (CommentService.get_by_id db (com_id comment)) →
       CommentService.get_by_id db' (com_id comment) = Some comment') ∧
      (∀ id, id ≠ com_id comment →
         CommentService.get_by_id db' id = CommentService.get_by_id db id)) ∧
  (∃ db' comment',
      CommentService.vote_seq db comment [1; 0] user_id ip = Ok (db', comment') ∧
      com_likes_count comment' = 0 ∧ com_dislikes_count comment' = 0 ∧
      comment_votes db' = comment_votes db ∧
      (is_Some (CommentService.get_by_id db (com_id comment)) →
       CommentService.get_by_id db' (com_id comment) = Some comment') ∧
      (∀ id, id ≠ com_id comment →
         CommentService.get_by_id db' id = CommentService.get_by_id db id)).
Proof.
  intros Hl Hd Hrows. unfold CommentService.get_by_id. split_and!.
  - destruct (like_then db comment user_id ip Hrows 1)
      as (db' & c' & Hv & H1 & H2 & Hid & (liked & Hlid & Hcom) & Hvotes).
    exists db', c'. simpl in H1, H2, Hvotes. rewrite Hcom.
    destruct (put_twice_reads comment c' liked (comments db) Hid Hlid) as [Hown Hother].
    split_and!; [done|lia|lia|done|done|done].
  - destruct (like_then db comment user_id ip Hrows (-1))
      as (db' & c' & Hv & H1 & H2 & Hid & (liked & Hlid & Hcom) & Hvotes).
    exists db', c'. simpl in H1, H2, Hvotes. rewrite Hcom.
    destruct (put_twice_reads comment c' liked (comments db) Hid Hlid) as [Hown Hother].
    split_and!; [done|lia|lia|done|done|done].
  - destruct (like_then db comment user_id ip Hrows 0)
      as (db' & c' & Hv & H1 & H2 & Hid & (liked & Hlid & Hcom) & Hvotes).
    exists db', c'. simpl in H1, H2, Hvotes. rewrite Hcom.
    destruct (put_twice_reads comment c' liked (comments db) Hid Hlid) as [Hown Hother].
    split_and!; [done|lia|lia|done|done|done].
Qed.

Lemma vote_twice_witness :
  (∃ db' comment',
      CommentService.vote_seq one_comment_db fresh_comment [1; 1] None "10.0.0.7"
        = Ok (db', comment') ∧
      com_likes_count comment' = 1 ∧ com_dislikes_count comment' = 0 ∧
      comment_votes db' = [mkCommentVote 1 1 None "10.0.0.7" 1] ∧
      (is_Some (CommentService.get_by_id one_comment_db 1) →
       CommentService.get_by_id db' 1 = Some comment') ∧
      (∀ id, id ≠ 1 →
         CommentService.get_by_id db' id = CommentService.get_by_id one_comment_db id)) ∧
  (∃ db' comment',
      CommentService.vote_seq one_comment_db fresh_comment [1; -1] None "10.0.0.7"
        = Ok (db', comment') ∧
      com_likes_count comment' = 0 ∧ com_dislikes_count comment' = 1 ∧
      comment_votes db' = [mkCommentVote 1 1 None "10.0.0.7" (-1)] ∧
      (is_Some (CommentService.get_by_id one_comment_db 1) →
       CommentService.get_by_id db' 1 = Some comment') ∧
      (∀ id, id ≠ 1 →
         CommentService.get_by_id db' id = CommentService.get_by_id one_comment_db id)) ∧
  (∃ db' comment',
      CommentService.vote_seq one_comment_db fresh_comment [1; 0] None "10.0.0.7"
        = Ok (db', comment') ∧
      com_likes_count comment' = 0 ∧ com_dislikes_count comment' = 0 ∧
      comment_votes db' = [] ∧
      (is_Some (CommentService.get_by_id one_comment_db 1) →
       CommentService.get_by_id db' 1 = Some comment') ∧
      (∀ id, id ≠ 1 →
         CommentService.get_by_id db' id = CommentService.get_by_id one_comment_db id)).
Proof.
  apply (vote_twice one_comment_db fresh_comment None "10.0.0.7").
  - reflexivity.
  - reflexivity.
  - intros r Hr. inversion Hr.
Defined.

(** The stored row after each of the three sequences. *)
Example vote_twice_stored :
  (λ votes, (λ r, match r with
                  | Ok (db', _) => Some (comments db', comment_votes db')
                  | Err _ => None
                  end)
            (CommentService.vote_seq one_comment_db fresh_comment votes None "10.0.0.7"))
    <$> [[1; 1]; [1; -1]; [1; 0]]
  = [Some ([com_set_counts fresh_comment 1 0], [mkCommentVote 1 1 None "10.0.0.7" 1]);
     Some ([com_set_counts fresh_comment 0 1], [mkCommentVote 1 1 None "10.0.0.7" (-1)]);
     Some ([fresh_comment], [])].
Proof. vm_compute. reflexivity. Qed.

(** ** Rating a post *)

Lemma Z2Qc_add a b : Z2Qc (a + b) = (Z2Qc a + Z2Qc b)%Qc.
Proof.
  unfold Z2Qc. apply Qc_is_canon. simpl.
  rewrite !Qred_correct. by rewrite inject_Z_plus.
Qed.

Lemma Z2Qc_0 : Z2Qc 0 = 0%Qc.
Proof. by apply Qc_is_canon. Qed.

Lemma Z2Qc_ne_0 n : n ≠ 0 → Z2Qc n ≠ 0%Qc.
Proof.
  intros Hn H. apply Hn. unfold Z2Qc in H.
  apply (f_equal this) in H. simpl in H.
  assert (Qred (inject_Z n) == 0)%Q as Hq by (rewrite H; reflexivity).
  rewrite Qred_correct in Hq. unfold Qeq in Hq. simpl in Hq. lia.
Qed.


Lemma running_average (a : Qc) (r n total : Z) :
  n + 1 ≠ 0 →
  (a * Z2Qc n)%Qc = Z2Qc total →
  ((a * Z2Qc (n + 1 - 1) + Z2Qc r) / Z2Qc (n + 1) * Z2Qc (n + 1))%Qc
  = Z2Qc (total + r).
Proof.
  intros Hn Ha. replace (n + 1 - 1) with n by lia.
  rewrite (Z2Qc_add total r), <- Ha. field. by apply Z2Qc_ne_0.
Qed.





Section rate_post_facts.
Variables (db : Db) (post : Post) (rating : Z) (user_id : option Z) (ip : string).

Let lookup : list PostRating :=
  filter (λ r, pr_post_id r = post_id post ∧ PostService.same_voter user_id ip r)
         (post_ratings db).

(** No earlier row of the caller: a row is inserted and the count grows. *)
Lemma rate_post_new :
  lookup = [] → post_votes_count post + 1 ≠ 0 →
  let avg := ((post_rating post * Z2Qc (post_votes_count post + 1 - 1) + Z2Qc rating)
              / Z2Qc (post_votes_count post + 1))%Qc in
  let post' := post_set_rating post avg (post_votes_count post + 1) in
  let row := mkPostRating (Table.fresh pr_id (post_ratings db))
                          (post_id post) user_id ip rating in
  PostService.rate_post db post rating user_id ip =
  Ok (set_posts (set_post_ratings db (post_ratings db ++ [row]))
                (Table.put post_id post' (posts db)),
      (avg, post_votes_count post + 1)).
Proof.
  intros Hnone Hn. unfold PostService.rate_post. fold lookup. rewrite Hnone.
  cbn [scalar_one_or_none]. by rewrite decide_False.
Qed.

(** One earlier row of the caller: it is rewritten and the count stays. *)
Lemma rate_post_existing existing :
  lookup = [existing] → post_votes_count post ≠ 0 →
  let avg := ((post_rating post * Z2Qc (post_votes_count post)
               - Z2Qc (pr_rating existing) + Z2Qc rating)
              / Z2Qc (post_votes_count post))%Qc in
  let post' := post_set_rating post avg (post_votes_count post) in
  PostService.rate_post db post rating user_id ip =
  Ok (set_posts
        (set_post_ratings db
           (Table.put pr_id (pr_set_rating existing rating) (post_ratings db)))
        (Table.put post_id post' (posts db)),
      (avg, post_votes_count post)).
Proof.
  intros Hone Hn. unfold PostService.rate_post. fold lookup. rewrite Hone.
  cbn [scalar_one_or_none]. by rewrite decide_False.
Qed.

(** A call that returns took one of the two branches above. *)
Lemma rate_post_Ok db' avg n :
  PostService.rate_post db post rating user_id ip = Ok (db', (avg, n)) →
  (lookup = [] ∧ post_votes_count post + 1 ≠ 0) ∨
  (∃ existing, lookup = [existing] ∧ post_votes_count post ≠ 0).
Proof.
  unfold PostService.rate_post. fold lookup.
  destruct lookup as [|e [|e' l]]; cbn [scalar_one_or_none]; [| |done].
  - destruct (decide (post_votes_count post + 1 = 0)); [done|]. by left.
  - destruct (decide (post_votes_count post = 0)); [done|]. right. eauto.
Qed.

End rate_post_facts.





(** Ratings from callers that neither clash with each other nor match a
    stored row: every call inserts, and the stored average times the
    stored count stays the sum of the ratings. *)
Lemma rate_all_running_sum (pid : Z) (calls : list RateCall) :
  ∀ db post total,
    PostService.get_by_id db pid = Some post →
    0 ≤ post_votes_count post →
    (post_rating post * Z2Qc (post_votes_count post))%Qc = Z2Qc total →
    Forall in_range calls →
    clash_free calls →
    (∀ r, r ∈ post_ratings db → pr_post_id r = pid →
          Forall (λ c, ¬ PostService.same_voter (rc_user_id c) (rc_ip c) r) calls) →
    ∃ db' post',
      rate_all db pid calls = Ok db' ∧
      PostService.get_by_id db' pid = Some post' ∧
      post_votes_count post' = post_votes_count post + Z.of_nat (length calls) ∧
      (post_rating post' * Z2Qc (post_votes_count post'))%Qc
        = Z2Qc (total + sum_ratings calls).
Proof.
  induction calls as [|c calls IH]; intros db post total Hget Hn Hsum Hrange Hfree Hrows.
  - exists db, post. simpl. split_and!; [done..|lia|]. by rewrite Z.add_0_r.
  - apply Forall_cons in Hrange as [Hc Hrange]. destruct Hfree as [Hc_free Hfree].
    assert (post_id post = pid) as Hpid by (by apply get_Some in Hget as [_ ?]).
    cbn [rate_all]. unfold rate_post_endpoint.
    rewrite decide_True by done. rewrite Hget.
    rewrite rate_post_new; [| |lia].
    2:{ apply filter_none. intros r Hr [Hp Hv].
        rewrite Hpid in Hp. specialize (Hrows r Hr Hp).
        by apply Forall_cons in Hrows as [Hrow _]. }
    cbv zeta.
    set (avg := ((post_rating post * Z2Qc (post_votes_count post + 1 - 1)
                  + Z2Qc (rc_rating c)) / Z2Qc (post_votes_count post + 1))%Qc).
    set (post1 := post_set_rating post avg (post_votes_count post + 1)).
    set (row := mkPostRating _ _ _ _ _).
    set (db1 := set_posts _ _).
    destruct (IH db1 post1 (total + rc_rating c)) as (db' & post' & Hall & Hget' & Hn' & Hsum').
    + unfold PostService.get_by_id, db1. cbn [posts set_posts].
      apply (get_put post_id _ _ post); [done|]. by rewrite <- Hpid.
    + cbn. lia.
    + cbn [post_rating post_votes_count post1 post_set_rating]. unfold avg.
      apply running_average; [lia|done].
    + done.
    + done.
    + intros r Hr Hp. unfold db1 in Hr. cbn [post_ratings set_posts set_post_ratings] in Hr.
      apply elem_of_app in Hr as [Hr|Hr%list_elem_of_singleton].
      * specialize (Hrows r Hr Hp). by apply Forall_cons in Hrows as [_ ?].
      * subst r. eapply Forall_impl; [exact Hc_free|].
        intros c' Hc' Hv. apply Hc'. exact Hv.
    + exists db', post'. split_and!; [done|done| |].
      * rewrite Hn'. cbn [post_votes_count post1 post_set_rating length]. lia.
      * rewrite Hsum'. f_equal. cbn [sum_ratings foldr]. unfold sum_ratings. lia.
Qed.

(** C1, as amended.  Starting from rating 0, no votes and no rating rows
    for the post, requests with ratings in 1..5 from callers no two of
    which share a user id or an address leave the post with the mean of
    the ratings and with as many votes as there were requests. *)
Theorem rating_is_mean (db : Db) (pid : Z) (post : Post) (calls : list RateCall) :
  PostService.get_by_id db pid = Some post →
  post_rating post = 0%Qc →
  post_votes_count post = 0 →
  (∀ r, r ∈ post_ratings db → pr_post_id r ≠ pid) →
  Forall in_range calls →
  clash_free calls →
  calls ≠ [] →
  ∃ db' post',
    rate_all db pid calls = Ok db' ∧
    PostService.get_by_id db' pid = Some post' ∧
    post_votes_count post' = Z.of_nat (length calls) ∧
    post_rating post' = mean_rating calls.
Proof.
  intros Hget Hr Hn Hrows Hrange Hfree Hne.
  destruct (rate_all_running_sum pid calls db post 0)
    as (db' & post' & Hall & Hget' & Hn' & Hsum); [done|lia| |done|done| |].
  - by rewrite Hr, Hn, Z2Qc_0.
  - intros r Hin Hp. by destruct (Hrows r Hin).
  - exists db', post'. split_and!; [done|done|lia|].
    rewrite Hn, Z.add_0_l in Hn'. rewrite Hn', Z.add_0_l in Hsum.
    unfold mean_rating. rewrite <- Hsum. symmetry. apply Qcdiv_mult_l.
    apply Z2Qc_ne_0. destruct calls; [done|]. simpl. lia.
Qed.

Lemma rating_is_mean_witness :
  ∃ db' post',
    rate_all one_post_db 1 separate_address_calls = Ok db' ∧
    PostService.get_by_id db' 1 = Some post' ∧
    post_votes_count post' = 3 ∧
    post_rating post' = mean_rating separate_address_calls.
Proof.
  apply (rating_is_mean one_post_db 1 (mkPost 1 "hello" "hello" 1 true 0%Qc 0 [])
                        separate_address_calls).
  - reflexivity.
  - reflexivity.
  - reflexivity.
  - intros r Hr. inversion Hr.
  - repeat constructor; unfold in_range; simpl; lia.
  - simpl. repeat split; repeat (apply Forall_cons; split);
      try exact I; try (apply Forall_nil; exact I);
      intros [[_ ?]|?]; discriminate.
  - discriminate.
Defined.

(** C1 as stated fails: two logged-in users with different ids behind
    one address count as one voter, so after their two requests the post
    has one vote, not two. *)
Lemma rating_is_mean_counterexample :
  ¬ (∀ (db : Db) (pid : Z) (post : Post) (calls : list RateCall),
       PostService.get_by_id db pid = Some post →
       post_rating post = 0%Qc →
       post_votes_count post = 0 →
       (∀ r, r ∈ post_ratings db → pr_post_id r ≠ pid) →
       Forall in_range calls →
       distinct_voters calls →
       calls ≠ [] →
       ∃ db' post',
         rate_all db pid calls = Ok db' ∧
         PostService.get_by_id db' pid = Some post' ∧
         post_votes_count post' = Z.of_nat (length calls) ∧
         post_rating post' = mean_rating calls).
Proof.
  intros H.
  destruct (H one_post_db 1 (mkPost 1 "hello" "hello" 1 true 0%Qc 0 [])
              shared_address_calls) as (db' & post' & Hall & Hget & Hn & _).
  - reflexivity.
  - reflexivity.
  - reflexivity.
  - intros r Hr. inversion Hr.
  - repeat constructor; unfold in_range; simpl; lia.
  - unfold distinct_voters. simpl. apply NoDup_cons. split.
    + intros Hin. apply list_elem_of_singleton in Hin. discriminate.
    + apply NoDup_singleton.
  - discriminate.
  - vm_compute in Hall. injection Hall as <-.
    vm_compute in Hget. injection Hget as <-.
    discriminate Hn.
Qed.

(** ** Comments of a post *)

Global Instance pinned_newest_first_total : Total CommentService.pinned_newest_first.
Proof.
  intros a b. unfold CommentService.pinned_newest_first.
  destruct (com_is_pinned a), (com_is_pinned b); auto; lia.
Qed.

Global Instance pinned_newest_first_trans : Transitive CommentService.pinned_newest_first.
Proof.
  intros a b c. unfold CommentService.pinned_newest_first.
  destruct (com_is_pinned a), (com_is_pinned b), (com_is_pinned c); auto; try done; lia.
Qed.




Example thread_first_page :
  CommentService.get_by_post thread_db 1 1 2 true =
  ([(mkComment 2 "pinned" 1 None None true true 0 0 20, []);
    (mkComment 6 "new" 1 None None true false 0 0 60, [])], 3).
Proof. vm_compute. reflexivity. Qed.

Example thread_second_page :
  CommentService.get_by_post thread_db 1 2 2 true =
  ([(mkComment 1 "old" 1 None None true false 0 0 10,
     [mkComment 4 "reply" 1 None (Some 1) true false 0 0 40;
      mkComment 5 "reply too" 1 None (Some 1) false false 0 0 50])], 3).
Proof. vm_compute. reflexivity. Qed.

(** ** The category tree *)

Global Instance by_position_name_total : Total CategoryService.by_position_name.
Proof.
  intros a b. unfold CategoryService.by_position_name.
  destruct (Z.lt_trichotomy (cat_position a) (cat_position b)) as [?|[?|?]]; auto.
  destruct (total String.le (cat_name a) (cat_name b)); auto.
Qed.

Global Instance by_position_name_trans : Transitive CategoryService.by_position_name.
Proof.
  intros a b c. unfold CategoryService.by_position_name.
  intros [?|[? Hab]] [?|[? Hbc]]; [left; lia..|].
  right. split; [lia|]. by etrans.
Qed.

(** C6, as amended.  With [active_only] the roots returned are active
    categories without parent, ordered by position then name; the
    children of a root are all the rows that have it as parent, in
    storage order, active or not. *)
Theorem tree_roots_active_and_ordered (db : Db) :
  let tree := CategoryService.get_tree db true in
  Forall (λ node,
            cat_is_active node.1 = true ∧
            cat_parent_id node.1 = None ∧
            node.1 ∈ categories db ∧
            node.2 = filter (λ r, cat_parent_id r = Some (cat_id node.1))
                            (categories db)) tree ∧
  StronglySorted CategoryService.by_position_name (tree.*1) ∧
  tree.*1 ≡ₚ filter (CategoryService.is_root true) (categories db).
Proof.
  intros tree. unfold tree, CategoryService.get_tree.
  set (rows := filter (CategoryService.is_root true) (categories db)).
  set (ordered := merge_sort CategoryService.by_position_name rows).
  assert (((λ c, (c, CategoryService.children db c)) <$> ordered).*1 = ordered) as Hfst.
  { rewrite <- list_fmap_compose. apply list_fmap_id. }
  split_and!.
  - apply Forall_fmap, Forall_forall. intros c Hc. cbn [fst snd].
    assert (c ∈ rows) as Hr.
    { by rewrite <- (merge_sort_Permutation CategoryService.by_position_name rows). }
    apply list_elem_of_filter in Hr as [[Hroot Hact] Hin].
    split_and!; [|done..]. apply Is_true_true, Hact. done.
  - rewrite Hfst. apply (StronglySorted_merge_sort _).
  - rewrite Hfst. apply merge_sort_Permutation.
Qed.

(** C6 as stated fails: the inactive child of an active root is returned
    in the root's children. *)
Lemma tree_inactive_child_counterexample :
  ¬ (∀ db : Db,
       let tree := CategoryService.get_tree db true in
       Forall (λ node,
                 cat_is_active node.1 = true ∧
                 Forall (λ child, cat_is_active child = true) node.2 ∧
                 StronglySorted CategoryService.by_position_name node.2) tree ∧
       StronglySorted CategoryService.by_position_name (tree.*1)).
Proof.
  intros H. destruct (H inactive_child_db) as [Hnodes _].
  vm_compute in Hnodes.
  apply Forall_cons in Hnodes as [(_ & Hkids & _) _].
  apply Forall_cons in Hkids as [Hkid _]. discriminate Hkid.
Qed.

(** ** Re-parenting a category *)

(** The guard of the handler: an update whose [parent_id] is the id of
    the category itself is refused with 400 Bad Request and leaves the
    table as it was. *)
Lemma self_parent_rejected (slugify : string → string) (db : Db)
    (category_id : Z) (data : CategoryUpdate) :
  category_id ≠ 0 →
  is_Some (CategoryService.get_by_id db category_id) →
  cu_parent_id data = Some (Some category_id) →
  CategoriesApi.update_category slugify db category_id data
  = (db, Err (HTTPException HTTP_400_BAD_REQUEST)).
Proof.
  intros Hid [category Hget] Hparent.
  unfold CategoriesApi.update_category, cu_parent_id_attr.
  rewrite Hget, Hparent. cbn [default from_option id truthy].
  rewrite bool_decide_true by done.
  destruct (Z.eqb_spec category_id 0) as [?|_]; [done|]. reflexivity.
Qed.

(** C7.  The guard stops at the category itself; the parent chain is not
    walked.  Three requests, all accepted, starting from an empty table:
    a root is created, then a child of it, then the root is given its
    own child as parent.  The table then holds a parent cycle. *)
Theorem parent_cycle_accepted :
  ∃ db1 news db2 sport db3 updated,
    CategoriesApi.create_category (λ s, s) empty_db
      (mkCategoryCreate "news" None true true 0) = (db1, Ok news) ∧
    CategoriesApi.create_category (λ s, s) db1
      (mkCategoryCreate "sport" (Some (cat_id news)) true true 0) = (db2, Ok sport) ∧
    has_parent_cycle db2 = false ∧
    CategoriesApi.update_category (λ s, s) db2 (cat_id news)
      (set_parent (cat_id sport)) = (db3, Ok updated) ∧
    cat_parent_id updated = Some (cat_id sport) ∧
    parent_of db3 (cat_id news) = Some (cat_id sport) ∧
    parent_of db3 (cat_id sport) = Some (cat_id news) ∧
    has_parent_cycle db3 = true.
Proof.
  eexists _, _, _, _, _, _.
  split; [vm_compute; reflexivity|].
  split; [vm_compute; reflexivity|].
  split; [vm_compute; reflexivity|].
  split; [vm_compute; reflexivity|].
  split_and!; by vm_compute.
Qed.

(** ** Approval of comments *)

(** C8, as amended.  A comment is created approved ([is_approved] takes
    its column default, [True]); [approve] sets the flag; no other
    service call on a comment changes it, on this comment or on any
    other row. *)
Theorem comment_approval :
  (∀ db data author_id now,
      com_is_approved (CommentService.create db data author_id now).2 = true ∧
      (CommentService.create db data author_id now).2
        ∈ comments (CommentService.create db data author_id now).1) ∧
  (∀ db comment, com_is_approved (CommentService.approve db comment).2 = true) ∧
  (∀ db comment a db' comment',
      a ≠ CommentService.Approve →
      CommentService.run db comment a = Ok (db', comment') →
      com_is_approved comment' = com_is_approved comment ∧
      ∀ r, r ∈ comments db' → r = comment' ∨ r ∈ comments db).
Proof.
  split_and!.
  - intros db data author_id now. split; [done|].
    cbn. unfold Table.add. apply elem_of_app. right. left.
  - done.
  - intros db comment a db' comment' Ha Hrun.
    assert (∀ c, com_id c = com_id comment →
                 ∀ r, r ∈ Table.put com_id c (comments db) → r = c ∨ r ∈ comments db)
      as Hput.
    { intros c _ r Hr. apply elem_of_put in Hr as [?|[? _]]; auto. }
    destruct a as [content| | | |v user_id ip]; simpl in Hrun; try done.
    + injection Hrun as <- <-. split; [done|]. by apply Hput.
    + injection Hrun as <- <-. split; [done|]. by apply Hput.
    + injection Hrun as <- <-. split; [done|]. by apply Hput.
    + unfold CommentService.vote in Hrun.
      destruct (scalar_one_or_none _) as [[e|]|]; [| |done].
      * destruct (decide (v = 0)).
        -- destruct (decide (cv_vote e = 1)); injection Hrun as <- <-;
             (split; [done|]); by apply Hput.
        -- destruct (decide (cv_vote e ≠ v)); [destruct (decide (v = 1))|];
             injection Hrun as <- <-; (split; [done|]); by apply Hput.
      * destruct (decide (v ≠ 0)); [destruct (decide (v = 1))|];
          injection Hrun as <- <-; (split; [done|]); by apply Hput.
Qed.

Lemma comment_approval_witness :
  com_is_approved (CommentService.pin one_comment_db pending_comment).2
    = com_is_approved pending_comment ∧
  ∀ r, r ∈ comments (CommentService.pin one_comment_db pending_comment).1 →
       r = (CommentService.pin one_comment_db pending_comment).2 ∨
       r ∈ comments one_comment_db.
Proof.
  apply (proj2 (proj2 comment_approval) one_comment_db pending_comment
               CommentService.Pin
               (CommentService.pin one_comment_db pending_comment).1
               (CommentService.pin one_comment_db pending_comment).2).
  - discriminate.
  - reflexivity.
Defined.

(** C8 as stated fails: a comment is approved as soon as it is created. *)
Lemma new_comment_pending_counterexample :
  ¬ (∀ db data author_id now,
       com_is_approved (CommentService.create db data author_id now).2 = false).
Proof.
  intros H.
  specialize (H empty_db (mkCommentCreate "first" 1 None) None 0).
  discriminate H.
Qed.

(** ** Post counts of categories *)

Lemma posts_count_stays_non_negative (db : Db) (category : Category) :
  0 ≤ cat_posts_count category →
  0 ≤ cat_posts_count (CategoryService.increment_posts_count db category).2 ∧
  0 ≤ cat_posts_count (CategoryService.decrement_posts_count db category).2.
Proof.
  intros Hn. unfold CategoryService.increment_posts_count,
    CategoryService.decrement_posts_count.
  destruct (decide (cat_posts_count category > 0)); simpl; lia.
Qed.

(** A decrement at zero changes nothing. *)
Lemma decrement_at_zero (db : Db) (category : Category) :
  cat_posts_count category = 0 →
  CategoryService.decrement_posts_count db category = (db, category).
Proof.
  intros Hz. unfold CategoryService.decrement_posts_count.
  rewrite decide_False by lia. done.
Qed.

(** C9 at the failing input: a post created with category 2 is linked to
    it, and the category's [posts_count] is still 0. *)
Theorem create_post_keeps_posts_count (slugify : string → string) :
  ∃ db' post,
    PostService.create slugify counted_db
      (mkPostCreate "Final" true [2]) 1 = Ok (db', post) ∧
    post_categories post = [2] ∧
    PostService.get_by_id db' (post_id post) = Some post ∧
    cat_posts_count <$> CategoryService.get_by_id db' 2 = Some 0 ∧
    categories db' = categories counted_db.
Proof.
  eexists _, _. split; [reflexivity|]. by vm_compute.
Qed.

(** ** Deleting a category *)

(** C10.  DELETE /categories/{id} on a category whose [posts_count] is
    positive answers 400 and leaves the store as it was; the category is
    deleted exactly when its count is 0. *)
Theorem delete_category_guard (db : Db) (category_id : Z) (category : Category) :
  CategoryService.get_by_id db category_id = Some category →
  0 ≤ cat_posts_count category →
  (cat_posts_count category > 0 →
   CategoriesApi.delete_category db category_id
   = (db, Err (HTTPException HTTP_400_BAD_REQUEST))) ∧
  (cat_posts_count category = 0 →
   CategoriesApi.delete_category db category_id
   = (CategoryService.delete db category, Ok ())) ∧
  (∀ db', CategoriesApi.delete_category db category_id = (db', Ok ()) →
          cat_posts_count category = 0).
Proof.
  intros Hget Hn. unfold CategoriesApi.delete_category. rewrite Hget.
  destruct (decide (cat_posts_count category > 0)) as [Hpos|Hzero].
  - split_and!; [done|lia|]. intros db' [=].
  - split_and!; [lia|done|]. intros db' _. lia.
Qed.

Lemma delete_category_guard_witness :
  (3 > 0 →
   CategoriesApi.delete_category counted_db 1
   = (counted_db, Err (HTTPException HTTP_400_BAD_REQUEST))) ∧
  (3 = 0 →
   CategoriesApi.delete_category counted_db 1
   = (CategoryService.delete counted_db
        (mkCategory 1 "News" "news" None true true 0 3), Ok ())) ∧
  (∀ db', CategoriesApi.delete_category counted_db 1 = (db', Ok ()) → 3 = 0).
Proof.
  apply (delete_category_guard counted_db 1
           (mkCategory 1 "News" "news" None true true 0 3)).
  - reflexivity.
  - simpl. lia.
Defined.

Example delete_counted_category :
  CategoriesApi.delete_category counted_db 1
  = (counted_db, Err (HTTPException HTTP_400_BAD_REQUEST)).
Proof. reflexivity. Qed.

Example delete_empty_category :
  CategoriesApi.delete_category counted_db 2
  = (mkDb [] [] [mkCategory 1 "News" "news" None true true 0 3] [] [], Ok ()).
Proof. reflexivity. Qed.

(** * Further properties *)

(** ** Rows under unique keys *)

Lemma table_split {A : Type} (key : A → Z) (t : list A) (e : A) :
  NoDup (key <$> t) → e ∈ t →
  ∃ l1 l2, t = l1 ++ e :: l2 ∧ ∀ r, r ∈ l1 ++ l2 → key r ≠ key e.
Proof.
  intros Hnd (l1 & l2 & ->)%list_elem_of_split. exists l1, l2. split; [done|].
  rewrite fmap_app, fmap_cons in Hnd.
  apply NoDup_app in Hnd as (_ & Hl1 & [He _]%NoDup_cons).
  intros r [Hr|Hr]%elem_of_app Hk.
  - apply (Hl1 (key r)); [apply list_elem_of_fmap; eauto|]. rewrite Hk. left.
  - apply He. rewrite <- Hk. apply list_elem_of_fmap. eauto.
Qed.

Lemma put_split {A : Type} (key : A → Z) (l1 l2 : list A) (e e' : A) :
  (∀ r, r ∈ l1 ++ l2 → key r ≠ key e) → key e' = key e →
  Table.put key e' (l1 ++ e :: l2) = l1 ++ e' :: l2.
Proof.
  intros Hne Hk. unfold Table.put. rewrite fmap_app, fmap_cons.
  rewrite decide_True by done. f_equal; [|f_equal].
  - apply (put_absent key). intros r Hr. rewrite Hk. apply Hne, elem_of_app. by left.
  - apply (put_absent key). intros r Hr. rewrite Hk. apply Hne, elem_of_app. by right.
Qed.

Lemma remove_split {A : Type} (key : A → Z) (l1 l2 : list A) (e : A) :
  (∀ r, r ∈ l1 ++ l2 → key r ≠ key e) →
  Table.remove key (key e) (l1 ++ e :: l2) = l1 ++ l2.
Proof.
  intros Hne. unfold Table.remove. rewrite filter_app, filter_cons_False by tauto.
  f_equal.
  - apply (remove_absent key). intros r Hr. apply Hne, elem_of_app. by left.
  - apply (remove_absent key). intros r Hr. apply Hne, elem_of_app. by right.
Qed.

Lemma NoDup_keys_add {A : Type} (key : A → Z) (t : list A) (row : A) :
  NoDup (key <$> t) → key row = Table.fresh key t →
  NoDup (key <$> Table.add row t).
Proof.
  intros Hnd Hk. unfold Table.add. rewrite fmap_app. apply NoDup_app.
  split_and!; [done| |apply NoDup_singleton].
  intros k (r & -> & Hr)%list_elem_of_fmap Hin.
  apply list_elem_of_singleton in Hin. rewrite Hk in Hin.
  by apply (fresh_ne key t r).
Qed.

Lemma NoDup_keys_remove {A : Type} (key : A → Z) (t : list A) (id : Z) :
  NoDup (key <$> t) → NoDup (key <$> Table.remove key id t).
Proof.
  intros Hnd. unfold Table.remove. induction t as [|x t IH]; [done|].
  rewrite fmap_cons, NoDup_cons in Hnd. destruct Hnd as [Hx Hnd].
  destruct (decide (key x ≠ id)).
  - rewrite filter_cons_True by done. rewrite fmap_cons. apply NoDup_cons.
    split; [|by apply IH].
    intros (r & Hk & Hr)%list_elem_of_fmap. apply list_elem_of_filter in Hr as [_ Hr].
    apply Hx. rewrite Hk. apply list_elem_of_fmap. eauto.
  - rewrite filter_cons_False by done. by apply IH.
Qed.

(** ** Vote counters and vote rows *)

Lemma count_votes_app rows1 rows2 k w :
  count_votes (rows1 ++ rows2) k w = count_votes rows1 k w + count_votes rows2 k w.
Proof. unfold count_votes. rewrite filter_app, length_app. lia. Qed.

Lemma count_votes_cons r rows k w :
  count_votes (r :: rows) k w =
  (if decide (cv_comment_id r = k ∧ cv_vote r = w) then 1 else 0)
  + count_votes rows k w.
Proof.
  unfold count_votes. destruct (decide _) as [H|H].
  - rewrite filter_cons_True by done. simpl. lia.
  - rewrite filter_cons_False by done. lia.
Qed.

Lemma count_votes_nil k w : count_votes [] k w = 0.
Proof. done. Qed.

Ltac count_rows :=
  rewrite ?count_votes_app, ?count_votes_cons, ?count_votes_nil;
  simpl;
  repeat match goal with
         | |- context [decide ?P] => destruct (decide P)
         end;
  simpl in *; try lia; try (exfalso; intuition lia).

(** One call of [vote]: what it does to the store, and how the counters
    move against the rows. *)
Lemma vote_step db comment v user_id ip db' comment' likes dislikes :
  NoDup (cv_id <$> comment_votes db) →
  (∀ r, r ∈ comment_votes db → cv_vote r = 1 ∨ cv_vote r = -1) →
  -1 ≤ v ≤ 1 →
  CommentService.vote db comment v user_id ip = Ok (db', comment', (likes, dislikes)) →
  com_id comment' = com_id comment ∧
  likes = com_likes_count comment' ∧ dislikes = com_dislikes_count comment' ∧
  comments db' = Table.put com_id comment' (comments db) ∧
  NoDup (cv_id <$> comment_votes db') ∧
  (∀ r, r ∈ comment_votes db' → cv_vote r = 1 ∨ cv_vote r = -1) ∧
  com_likes_count comment' - count_votes (comment_votes db') (com_id comment) 1
    = com_likes_count comment - count_votes (comment_votes db) (com_id comment) 1 ∧
  com_dislikes_count comment' - count_votes (comment_votes db') (com_id comment) (-1)
    = com_dislikes_count comment - count_votes (comment_votes db) (com_id comment) (-1) ∧
  (∀ k w, k ≠ com_id comment →
     count_votes (comment_votes db') k w = count_votes (comment_votes db) k w).
Proof.
  intros Hnd Hvals Hv. unfold CommentService.vote.
  destruct (filter _ (comment_votes db)) as [|e [|e2 rest]] eqn:Hlook;
    cbn [scalar_one_or_none]; [| |done].
  - (* no earlier row *)
    destruct (decide (v ≠ 0)) as [Hv0|Hv0].
    + set (row := mkCommentVote _ _ _ _ _).
      assert (NoDup (cv_id <$> Table.add row (comment_votes db))) as Hnd'
        by (by apply NoDup_keys_add).
      assert (∀ r, r ∈ Table.add row (comment_votes db) → cv_vote r = 1 ∨ cv_vote r = -1)
        as Hvals'.
      { intros r [Hr|Hr%list_elem_of_singleton]%elem_of_app; [by apply Hvals|].
        subst r. simpl. lia. }
      destruct (decide (v = 1)) as [->|Hv1]; intros [= <- <- <- <-];
        cbn [comments comment_votes CommentService.flush set_comments
             set_comment_votes com_id com_set_counts com_likes_count
             com_dislikes_count];
        (split_and!; [done..| | |]); unfold Table.add, row; try intros k w Hk;
        count_rows.
    + intros [= <- <- <- <-].
      cbn [comments comment_votes CommentService.flush set_comments set_comment_votes].
      split_and!; try done; lia.
  - (* one earlier row *)
    assert (e ∈ filter (λ r, cv_comment_id r = com_id comment ∧
                             CommentService.same_voter user_id ip r) (comment_votes db))
      as [[He _] Hin]%list_elem_of_filter by (rewrite Hlook; left).
    destruct (table_split cv_id _ e Hnd Hin) as (l1 & l2 & Hrows & Hne).
    pose proof (Hvals e Hin) as Hold.
    assert (∀ r, r ∈ Table.remove cv_id (cv_id e) (comment_votes db) →
                 cv_vote r = 1 ∨ cv_vote r = -1) as Hvals_rm.
    { intros r Hr. unfold Table.remove in Hr.
      apply list_elem_of_filter in Hr as [_ Hr]. by apply Hvals. }
    assert (v ≠ 0 → ∀ r, r ∈ Table.put cv_id (cv_set_vote e v) (comment_votes db) →
                 cv_vote r = 1 ∨ cv_vote r = -1) as Hvals_put.
    { intros Hv0 r Hr. apply elem_of_put in Hr as [->|[Hr _]]; [simpl; lia|].
      by apply Hvals. }
    assert (NoDup (cv_id <$> Table.put cv_id (cv_set_vote e v) (comment_votes db)))
      as Hnd_put by (by rewrite put_keys).
    pose proof (NoDup_keys_remove cv_id _ (cv_id e) Hnd) as Hnd_rm.
    assert (Table.remove cv_id (cv_id e) (comment_votes db) = l1 ++ l2) as Hrm.
    { rewrite Hrows. by apply remove_split. }
    assert (Table.put cv_id (cv_set_vote e v) (comment_votes db)
            = l1 ++ cv_set_vote e v :: l2) as Hput.
    { rewrite Hrows. by apply put_split. }
    destruct (decide (v = 0)) as [->|Hv0].
    + destruct (decide (cv_vote e = 1)) as [Ho|Ho]; intros [= <- <- <- <-];
        cbn [comments comment_votes CommentService.flush set_comments
             set_comment_votes com_id com_set_counts com_likes_count
             com_dislikes_count];
        (split_and!; [done..| | |]); try intros k w Hk;
        rewrite Hrm, Hrows; count_rows.
    + specialize (Hvals_put Hv0).
      destruct (decide (cv_vote e ≠ v)) as [Ho|Ho]; [destruct (decide (v = 1)) as [Hv1|Hv1]|];
        intros [= <- <- <- <-];
        cbn [comments comment_votes CommentService.flush set_comments
             set_comment_votes com_id com_set_counts com_likes_count
             com_dislikes_count];
        (split_and!; [done..| | |]); try intros k w Hk;
        rewrite Hput, Hrows; count_rows.
Qed.

(** X1.  Every accepted vote request keeps the counters of all comments
    equal to the numbers of like and dislike rows, and answers with
    exactly these numbers for the comment voted on. *)
Theorem vote_comment_keeps_tally (db : Db) (comment_id v : Z)
    (user_id : option Z) (ip : string) (db' : Db) (likes dislikes : Z)
    (user_vote : option Z) :
  votes_consistent db →
  CommentsApi.vote_comment db comment_id v user_id ip
    = Ok (db', (likes, dislikes, user_vote)) →
  votes_consistent db' ∧
  likes = count_votes (comment_votes db') comment_id 1 ∧
  dislikes = count_votes (comment_votes db') comment_id (-1).
Proof.
  intros [Hck Hvk Hvals Htally]. unfold CommentsApi.vote_comment.
  destruct (decide (-1 ≤ v ≤ 1)) as [Hv|]; [|done].
  destruct (CommentService.get_by_id db comment_id) as [c|] eqn:Hget; [|done].
  apply get_Some in Hget as [Hc Hid].
  destruct (CommentService.vote db c v user_id ip) as [[[db1 c'] [l d]]|] eqn:Hvote;
    [|done].
  intros [= <- <- <- _].
  destruct (vote_step _ _ _ _ _ _ _ _ _ Hvk Hvals Hv Hvote)
    as (Hid' & -> & -> & Hcoms & Hvk' & Hvals' & Hl & Hd & Hother).
  destruct (Htally c Hc) as [Hcl Hcd]. rewrite Hid in *.
  split; [|lia]. split; [|done|done|].
  - by rewrite Hcoms, put_keys.
  - intros r Hr. rewrite Hcoms in Hr.
    apply elem_of_put in Hr as [->|[Hr Hne]].
    + rewrite Hid'. lia.
    + rewrite !Hother by congruence. by apply Htally.
Qed.

Lemma vote_comment_keeps_tally_witness :
  ∃ db' likes dislikes user_vote,
    CommentsApi.vote_comment one_comment_db 1 1 None "10.0.0.7"
      = Ok (db', (likes, dislikes, user_vote)) ∧
    votes_consistent db' ∧
    likes = count_votes (comment_votes db') 1 1 ∧
    dislikes = count_votes (comment_votes db') 1 (-1).
Proof.
  eexists _, _, _, _. split; [vm_compute; reflexivity|].
  apply (vote_comment_keeps_tally one_comment_db 1 1 None "10.0.0.7" _ _ _ (Some 1)).
  - split; simpl.
    + apply NoDup_singleton.
    + apply NoDup_nil_2.
    + intros r Hr. inversion Hr.
    + intros c Hc. apply list_elem_of_singleton in Hc. subst c. split; reflexivity.
  - vm_compute. reflexivity.
Defined.

Lemma put_put_key {A : Type} (key : A → Z) (a b : A) (t : list A) :
  key a = key b → Table.put key a (Table.put key b t) = Table.put key a t.
Proof.
  intros Hk. unfold Table.put. rewrite <- list_fmap_compose. apply list_fmap_ext.
  intros _ x _. simpl. destruct (decide (key x = key b)) as [Hx|Hx].
  - rewrite !decide_True by congruence. done.
  - done.
Qed.

Lemma com_set_counts_id c : com_set_counts c (com_likes_count c) (com_dislikes_count c) = c.
Proof. by destruct c. Qed.

(** X2.  A like or dislike from a caller without a row, followed by the
    same caller's vote 0, leaves the store exactly as it was before the
    two requests. *)
Theorem vote_then_unvote (db : Db) (comment_id v : Z) (user_id : option Z)
    (ip : string) (comment : Comment) :
  NoDup (com_id <$> comments db) →
  CommentService.get_by_id db comment_id = Some comment →
  filter (λ r, cv_comment_id r = comment_id ∧
               CommentService.same_voter user_id ip r) (comment_votes db) = [] →
  v = 1 ∨ v = -1 →
  ∃ db1 likes1 dislikes1,
    CommentsApi.vote_comment db comment_id v user_id ip
      = Ok (db1, (likes1, dislikes1, Some v)) ∧
    CommentsApi.vote_comment db1 comment_id 0 user_id ip
      = Ok (db, (com_likes_count comment, com_dislikes_count comment, None)).
Proof.
  intros Hnd Hget Hnone Hv.
  pose proof (get_Some com_id _ _ _ Hget) as [Hin Hid]. subst comment_id.
  unfold CommentsApi.vote_comment at 1. rewrite decide_True by lia.
  unfold CommentService.get_by_id in *. rewrite Hget.
  unfold CommentService.vote at 1. rewrite Hnone. cbn [scalar_one_or_none].
  rewrite decide_True by lia.
  set (row := mkCommentVote _ _ _ _ _).
  set (comment1 := if decide (v = 1) then _ else _).
  assert (com_id comment1 = com_id comment) as Hid1
    by (unfold comment1; by destruct (decide (v = 1))).
  rewrite decide_True by lia.
  eexists _, _, _. split; [reflexivity|].
  unfold CommentsApi.vote_comment. rewrite decide_True by lia.
  unfold CommentService.get_by_id.
  cbn [comments comment_votes CommentService.flush set_comments set_comment_votes].
  rewrite (get_put com_id _ _ comment) by congruence.
  unfold CommentService.vote.
  cbn [comments comment_votes CommentService.flush set_comments set_comment_votes].
  rewrite Hid1. unfold Table.add. rewrite filter_app, Hnone. cbn [app].
  rewrite filter_cons_True by (split; [done|by right]).
  cbn [filter list_filter scalar_one_or_none].
  rewrite (decide_True (P := 0 = 0)) by done.
  rewrite (decide_False (P := 0 ≠ 0)) by lia.
  assert (Table.remove cv_id (cv_id row) (comment_votes db ++ [row]) = comment_votes db)
    as ->.
  { unfold Table.remove. rewrite filter_app.
    rewrite (filter_cons_False _ row) by tauto. cbn. rewrite app_nil_r.
    apply (remove_absent cv_id). intros r Hr. by apply fresh_ne. }
  assert ((if decide (cv_vote row = 1)
           then com_set_counts comment1 (com_likes_count comment1 - 1)
                               (com_dislikes_count comment1)
           else com_set_counts comment1 (com_likes_count comment1)
                               (com_dislikes_count comment1 - 1)) = comment) as ->.
  { unfold comment1, row. cbn [cv_vote].
    destruct (decide (v = 1));
      (transitivity (com_set_counts comment (com_likes_count comment)
                                    (com_dislikes_count comment));
       [|apply com_set_counts_id]);
      unfold com_set_counts; cbn; f_equal; lia. }
  unfold CommentService.flush, set_comment_votes, set_comments.
  cbn [posts post_ratings categories comments comment_votes].
  rewrite put_put_key by done. rewrite (put_same com_id) by done.
  by destruct db.
Qed.

Lemma vote_then_unvote_witness :
  ∃ db1 likes1 dislikes1,
    CommentsApi.vote_comment one_comment_db 1 1 None "10.0.0.7"
      = Ok (db1, (likes1, dislikes1, Some 1)) ∧
    CommentsApi.vote_comment db1 1 0 None "10.0.0.7"
      = Ok (one_comment_db, (0, 0, None)).
Proof.
  apply (vote_then_unvote one_comment_db 1 1 None "10.0.0.7" fresh_comment).
  - apply NoDup_singleton.
  - reflexivity.
  - reflexivity.
  - by left.
Defined.

(** ** Ratings and rating rows *)

Lemma sum_rows_app rows1 rows2 :
  sum_rows (rows1 ++ rows2) = sum_rows rows1 + sum_rows rows2.
Proof.
  unfold sum_rows. induction rows1 as [|r rows1 IH]; simpl; [done|].
  rewrite IH. lia.
Qed.

(** One call of [rate_post] on a post whose count and rating agree with
    its rows: they agree afterwards, and the rows of other posts are
    left alone. *)
Lemma rate_post_step db post rating user_id ip db' avg n :
  NoDup (pr_id <$> post_ratings db) →
  post_votes_count post = Z.of_nat (length (ratings_of db (post_id post))) →
  (post_rating post * Z2Qc (post_votes_count post))%Qc
    = Z2Qc (sum_rows (ratings_of db (post_id post))) →
  PostService.rate_post db post rating user_id ip = Ok (db', (avg, n)) →
  posts db' = Table.put post_id (post_set_rating post avg n) (posts db) ∧
  NoDup (pr_id <$> post_ratings db') ∧
  n = Z.of_nat (length (ratings_of db' (post_id post))) ∧
  1 ≤ n ∧
  (avg * Z2Qc n)%Qc = Z2Qc (sum_rows (ratings_of db' (post_id post))) ∧
  (∀ k, k ≠ post_id post → ratings_of db' k = ratings_of db k).
Proof.
  intros Hnd Hcount Hmean Hrate.
  destruct (rate_post_Ok _ _ _ _ _ _ _ _ Hrate) as [[Hnone Hn]|(e & Hone & Hn)].
  - rewrite rate_post_new in Hrate by done. cbv zeta in Hrate.
    injection Hrate as <- <- <-.
    cbn [posts post_ratings set_posts set_post_ratings].
    unfold ratings_of. cbn [post_ratings set_posts set_post_ratings].
    set (row := mkPostRating _ _ _ _ _).
    split_and!.
    + done.
    + by apply (NoDup_keys_add pr_id).
    + rewrite filter_app, length_app, filter_cons_True by done.
      unfold ratings_of in Hcount. simpl. lia.
    + lia.
    + rewrite filter_app, filter_cons_True by done. cbn [filter list_filter].
      rewrite sum_rows_app. unfold sum_rows at 2. cbn [foldr pr_rating row].
      rewrite Z.add_0_r. apply running_average; [done|]. exact Hmean.
    + intros k Hk. rewrite filter_app, filter_cons_False by (simpl; congruence).
      cbn. by rewrite app_nil_r.
  - assert (e ∈ filter (λ r, pr_post_id r = post_id post ∧
                             PostService.same_voter user_id ip r) (post_ratings db))
      as [[He _] Hin]%list_elem_of_filter by (rewrite Hone; left).
    rewrite (rate_post_existing _ _ _ _ _ e) in Hrate by done. cbv zeta in Hrate.
    injection Hrate as <- <- <-.
    destruct (table_split pr_id _ e Hnd Hin) as (l1 & l2 & Hrows & Hne).
    cbn [posts post_ratings set_posts set_post_ratings].
    unfold ratings_of in *. cbn [post_ratings set_posts set_post_ratings].
    assert (Table.put pr_id (pr_set_rating e rating) (post_ratings db)
            = l1 ++ pr_set_rating e rating :: l2) as Hput.
    { rewrite Hrows. by apply put_split. }
    assert (1 ≤ post_votes_count post) as Hpos.
    { rewrite Hcount, Hrows, filter_app, filter_cons_True, length_app by done.
      simpl. lia. }
    split_and!.
    + done.
    + by rewrite put_keys.
    + rewrite Hput, Hcount, Hrows, !filter_app, !filter_cons_True, !length_app by done.
      simpl. lia.
    + done.
    + rewrite Hput, filter_app, filter_cons_True, sum_rows_app by done.
      rewrite Hrows, filter_app, filter_cons_True, sum_rows_app in Hmean by done.
      unfold sum_rows at 2. unfold sum_rows at 2 in Hmean.
      cbn [foldr pr_rating pr_set_rating] in *.
      fold (sum_rows (filter (λ r, pr_post_id r = post_id post) l2)) in *.
      rewrite !Z2Qc_add in *.
      transitivity (post_rating post * Z2Qc (post_votes_count post)
                    - Z2Qc (pr_rating e) + Z2Qc rating)%Qc.
      { field. by apply Z2Qc_ne_0. }
      rewrite Hmean. ring.
    + intros k Hk. rewrite Hput, Hrows, !filter_app.
      rewrite !filter_cons_False by (simpl; congruence). done.
Qed.

(** X3.  Every accepted rating request, first vote or re-vote, keeps the
    vote count of all posts equal to the number of their rating rows and
    their rating equal to the mean of these rows; the answer carries
    that count and that mean for the post rated. *)
Theorem rate_post_keeps_mean (db : Db) (pid rating : Z) (user_id : option Z)
    (ip : string) (db' : Db) (avg : Qc) (n : Z) :
  ratings_consistent db →
  rate_post_endpoint db pid rating user_id ip = Ok (db', (avg, n)) →
  ratings_consistent db' ∧
  n = Z.of_nat (length (ratings_of db' pid)) ∧
  1 ≤ n ∧
  avg = (Z2Qc (sum_rows (ratings_of db' pid)) / Z2Qc n)%Qc.
Proof.
  intros [Hpk Hrk Hmean]. unfold rate_post_endpoint.
  destruct (decide (1 ≤ rating ≤ 5)); [|done].
  destruct (PostService.get_by_id db pid) as [p|] eqn:Hget; [|done].
  apply get_Some in Hget as [Hp Hid]. intros Hrate.
  destruct (Hmean p Hp) as [Hc Hm].
  destruct (rate_post_step _ _ _ _ _ _ _ _ Hrk Hc Hm Hrate)
    as (Hposts & Hrk' & Hn & Hpos & Havg & Hother).
  rewrite Hid in *. split_and!; [|done|done|].
  - split; [by rewrite Hposts, put_keys|done|].
    intros q Hq. rewrite Hposts in Hq.
    apply elem_of_put in Hq as [->|[Hq Hne]].
    + cbn [post_id post_votes_count post_rating post_set_rating]. by rewrite Hid.
    + cbn [post_id post_set_rating] in Hne. rewrite Hother by congruence.
      by apply Hmean.
  - rewrite <- Havg. symmetry. apply Qcdiv_mult_l, Z2Qc_ne_0. lia.
Qed.

Lemma rate_post_keeps_mean_witness :
  ∃ db' avg n,
    rate_post_endpoint one_post_db 1 4 None "10.0.0.7" = Ok (db', (avg, n)) ∧
    ratings_consistent db' ∧
    n = Z.of_nat (length (ratings_of db' 1)) ∧
    1 ≤ n ∧
    avg = (Z2Qc (sum_rows (ratings_of db' 1)) / Z2Qc n)%Qc.
Proof.
  eexists _, _, _. split; [vm_compute; reflexivity|].
  apply (rate_post_keeps_mean one_post_db 1 4 None "10.0.0.7").
  - split; simpl.
    + apply NoDup_singleton.
    + apply NoDup_nil_2.
    + intros p Hp. apply list_elem_of_singleton in Hp. subst p.
      split; [reflexivity|]. by apply Qc_is_canon.
  - vm_compute. reflexivity.
Defined.

(** ** Creation: round trips and unique columns *)

Lemma get_add_fresh {A : Type} (key : A → Z) (t : list A) (row : A) :
  key row = Table.fresh key t → Table.get key (key row) (t ++ [row]) = Some row.
Proof.
  intros Hk. unfold Table.get. rewrite filter_app.
  rewrite (filter_none (λ r, key r = key row) t).
  - by rewrite filter_cons_True.
  - intros r Hr. rewrite Hk. by apply fresh_ne.
Qed.

Lemma head_filter_add_new {A : Type} (slug_of : A → string) (t : list A) (row : A) :
  ¬ held slug_of t (slug_of row) →
  head (filter (λ r, slug_of r = slug_of row) (t ++ [row])) = Some row.
Proof.
  intros Hfree. rewrite filter_app.
  destruct (filter (λ r, slug_of r = slug_of row) t) as [|x l] eqn:Hf.
  - by rewrite filter_cons_True.
  - destruct Hfree. unfold held. rewrite Hf. eauto.
Qed.

Lemma NoDup_slugs_add {A : Type} (slug_of : A → string) (t : list A) (row : A) :
  NoDup (slug_of <$> t) → ¬ held slug_of t (slug_of row) →
  NoDup (slug_of <$> t ++ [row]).
Proof.
  intros Hnd Hfree. rewrite fmap_app. apply NoDup_app.
  split_and!; [done| |apply NoDup_singleton].
  intros s Hs Hin. apply list_elem_of_singleton in Hin. subst s.
  by apply Hfree, held_elem_of.
Qed.

Lemma post_create_shape slugify db data author_id :
  ∃ db' post,
    PostService.create slugify db data author_id = Ok (db', post) ∧
    posts db' = posts db ++ [post] ∧
    post_id post = Table.fresh post_id (posts db) ∧
    ¬ held post_slug (posts db) (post_slug post) ∧
    post_title post = pc_title data ∧
    post_rating post = 0%Qc ∧ post_votes_count post = 0 ∧
    post_categories post =
      cat_id <$> filter (λ c, cat_id c ∈ pc_category_ids data) (categories db) ∧
    post_ratings db' = post_ratings db ∧ categories db' = categories db ∧
    comments db' = comments db ∧ comment_votes db' = comment_votes db.
Proof.
  unfold PostService.create.
  destruct (unique_slug_spec post_slug (posts db)
              (λ s, bool_decide (is_Some (PostService.get_by_slug db s)))
              (slugify (pc_title data))) as (slug & -> & Hfree).
  { intros s Hs. by apply bool_decide_eq_true in Hs. }
  apply first_free_slug_decide in Hfree as [Hfree _].
  destruct (pc_category_ids data) as [|i ids] eqn:Hids.
  - eexists _, _. split; [done|]. simpl.
    rewrite (filter_none (λ c, cat_id c ∈ [])) by (intros c _ Hc; inversion Hc).
    by split_and!.
  - eexists _, _. split; [done|]. simpl. rewrite put_add_fresh by done.
    by split_and!.
Qed.

(** X4.  Creating a post always succeeds.  The new post can at once be
    read back by its id and by its slug, it starts unrated, the posts
    that were there are kept in place, and unique ids and unique slugs
    stay unique. *)
Theorem post_create_round_trip (slugify : string → string) (db : Db)
    (data : PostCreate) (author_id : Z) :
  ∃ db' post,
    PostService.create slugify db data author_id = Ok (db', post) ∧
    PostService.get_by_id db' (post_id post) = Some post ∧
    PostService.get_by_slug db' (post_slug post) = Some post ∧
    post_rating post = 0%Qc ∧ post_votes_count post = 0 ∧
    posts db' = posts db ++ [post] ∧
    (NoDup (post_id <$> posts db) → NoDup (post_id <$> posts db')) ∧
    (NoDup (post_slug <$> posts db) → NoDup (post_slug <$> posts db')).
Proof.
  destruct (post_create_shape slugify db data author_id)
    as (db' & post & Hc & Hposts & Hid & Hfree & _ & Hr & Hn & _).
  exists db', post. unfold PostService.get_by_id, PostService.get_by_slug.
  rewrite Hposts. split_and!; [done| | |done..| |].
  - by apply get_add_fresh.
  - by apply head_filter_add_new.
  - intros Hnd. by apply (NoDup_keys_add post_id).
  - intros Hnd. by apply NoDup_slugs_add.
Qed.

Lemma category_create_shape slugify db data :
  cc_name data ∉ cat_name <$> categories db →
  ∃ db' category,
    CategoryService.create slugify db data = Ok (db', category) ∧
    categories db' = categories db ++ [category] ∧
    cat_id category = Table.fresh cat_id (categories db) ∧
    ¬ held cat_slug (categories db) (cat_slug category) ∧
    cat_parent_id category = cc_cat_parent_id data ∧
    cat_posts_count category = 0 ∧
    cat_name category = cc_name data ∧
    posts db' = posts db.
Proof.
  intros Hname. unfold CategoryService.create.
  destruct (unique_slug_spec cat_slug (categories db)
              (λ s, bool_decide (is_Some (CategoryService.get_by_slug db s)))
              (slugify (cc_name data))) as (slug & -> & Hfree).
  { intros s Hs. by apply bool_decide_eq_true in Hs. }
  apply first_free_slug_decide in Hfree as [Hfree _].
  destruct (decide (cc_name data ∈ cat_name <$> categories db)); [done|].
  eexists _, _. split; [done|]. simpl. by split_and!.
Qed.

Lemma next_id_pos (ids : list Z) : 1 ≤ next_id ids.
Proof.
  unfold next_id. induction ids as [|x ids IH]; simpl; lia.
Qed.

Lemma create_category_refused slugify db data parent_id :
  cc_cat_parent_id data = Some parent_id → parent_id ≠ 0 →
  CategoryService.get_by_id db parent_id = None →
  CategoriesApi.create_category slugify db data
  = (db, Err (HTTPException HTTP_400_BAD_REQUEST)).
Proof.
  intros Hp Hne Hget. unfold CategoriesApi.create_category.
  rewrite Hp. cbn [truthy]. rewrite bool_decide_true by done.
  by destruct (Z.eqb_spec parent_id 0).
Qed.

Lemma create_category_parent_found slugify db data :
  (∀ parent_id,
      cc_cat_parent_id data = Some parent_id → parent_id ≠ 0 →
      is_Some (CategoryService.get_by_id db parent_id)) →
  CategoriesApi.create_category slugify db data =
    match CategoryService.create slugify db data with
    | Ok (db', category) => (db', Ok category)
    | Err e => (db, Err e)
    end.
Proof.
  intros Hparent. unfold CategoriesApi.create_category.
  assert (match cc_cat_parent_id data with
          | Some parent_id =>
              truthy (Some parent_id) &&
              bool_decide (CategoryService.get_by_id db parent_id = None)
          | None => false
          end = false) as ->; [|done].
  destruct (cc_cat_parent_id data) as [pid|] eqn:Hp; [|done]. cbn [truthy].
  destruct (Z.eqb_spec pid 0) as [->|Hne]; [done|]. simpl.
  apply bool_decide_eq_false. destruct (Hparent pid eq_refl Hne) as [c Hc].
  by rewrite Hc.
Qed.

Lemma create_category_accepted slugify db data :
  (∀ parent_id,
      cc_cat_parent_id data = Some parent_id → parent_id ≠ 0 →
      is_Some (CategoryService.get_by_id db parent_id)) →
  cc_name data ∉ cat_name <$> categories db →
  ∃ db' category,
    CategoriesApi.create_category slugify db data = (db', Ok category) ∧
    categories db' = categories db ++ [category] ∧
    cat_id category = Table.fresh cat_id (categories db) ∧
    ¬ held cat_slug (categories db) (cat_slug category) ∧
    cat_parent_id category = cc_cat_parent_id data ∧
    cat_posts_count category = 0 ∧
    cat_name category = cc_name data.
Proof.
  intros Hparent Hname. rewrite create_category_parent_found by done.
  destruct (category_create_shape slugify db data Hname)
    as (db' & category & -> & Hcats & Hid & Hfree & Hpar & Hcount & Hn & _).
  by exists db', category.
Qed.

(** A request goes through only with a parent that is there (or none)
    and a name no row carries. *)
Lemma create_category_Ok slugify db data db' category :
  CategoriesApi.create_category slugify db data = (db', Ok category) →
  (∀ parent_id,
      cc_cat_parent_id data = Some parent_id → parent_id ≠ 0 →
      is_Some (CategoryService.get_by_id db parent_id)) ∧
  cc_name data ∉ cat_name <$> categories db.
Proof.
  intros Hcreate.
  assert (∀ parent_id, cc_cat_parent_id data = Some parent_id → parent_id ≠ 0 →
                       is_Some (CategoryService.get_by_id db parent_id)) as Hparent.
  { intros pid Hp Hne.
    destruct (CategoryService.get_by_id db pid) as [c|] eqn:Hc; [eauto|].
    rewrite (create_category_refused slugify db data pid Hp Hne Hc) in Hcreate.
    done. }
  split; [done|]. intros Hname.
  rewrite create_category_parent_found in Hcreate by done.
  by rewrite (category_create_refused slugify db data Hname) in Hcreate.
Qed.

(** A fresh id is not 0 and is the id of no row, so a parent that is 0
    or names a row is not the new category. *)
Lemma new_category_not_own_parent db (parent : option Z) (id : Z) :
  (∀ parent_id, parent = Some parent_id → parent_id ≠ 0 →
                is_Some (CategoryService.get_by_id db parent_id)) →
  id = Table.fresh cat_id (categories db) →
  parent ≠ Some id.
Proof.
  intros Hparent Hid Hself.
  destruct (decide (id = 0)) as [Hz|Hnz].
  - pose proof (next_id_pos (cat_id <$> categories db)) as Hpos.
    unfold Table.fresh in Hid. lia.
  - destruct (Hparent id Hself Hnz) as [c Hc].
    apply get_Some in Hc as [Hc Hk]. apply (fresh_ne cat_id _ c Hc). congruence.
Qed.

(** X5.  POST /categories.  A non-zero [parent_id] that names no
    category is refused with 400 and nothing is written.  With the
    parent in place, a name that a row already carries is refused by the
    unique index on [name] and nothing is written either.  Otherwise the
    category is created: it can be read back by id and by slug, has the
    name asked for and no posts, carries the requested parent, is never
    its own parent, the rows that were there are kept in place, and
    unique ids, slugs and names stay unique. *)
Theorem create_category_checked (slugify : string → string) (db : Db)
    (data : CategoryCreate) :
  (∀ parent_id,
      cc_cat_parent_id data = Some parent_id → parent_id ≠ 0 →
      CategoryService.get_by_id db parent_id = None →
      CategoriesApi.create_category slugify db data
      = (db, Err (HTTPException HTTP_400_BAD_REQUEST))) ∧
  ((∀ parent_id,
      cc_cat_parent_id data = Some parent_id → parent_id ≠ 0 →
      is_Some (CategoryService.get_by_id db parent_id)) →
   (cc_name data ∈ cat_name <$> categories db →
    CategoriesApi.create_category slugify db data = (db, Err IntegrityError)) ∧
   (cc_name data ∉ cat_name <$> categories db →
    ∃ db' category,
      CategoriesApi.create_category slugify db data = (db', Ok category) ∧
      CategoryService.get_by_id db' (cat_id category) = Some category ∧
      CategoryService.get_by_slug db' (cat_slug category) = Some category ∧
      cat_name category = cc_name data ∧
      cat_parent_id category = cc_cat_parent_id data ∧
      cat_parent_id category ≠ Some (cat_id category) ∧
      cat_posts_count category = 0 ∧
      categories db' = categories db ++ [category] ∧
      (NoDup (cat_id <$> categories db) → NoDup (cat_id <$> categories db')) ∧
      (NoDup (cat_slug <$> categories db) → NoDup (cat_slug <$> categories db')) ∧
      (NoDup (cat_name <$> categories db) → NoDup (cat_name <$> categories db')))).
Proof.
  split; [apply create_category_refused|].
  intros Hparent. split.
  { intros Hname. rewrite create_category_parent_found by done.
    by rewrite (category_create_refused slugify db data Hname). }
  intros Hname.
  destruct (create_category_accepted slugify db data Hparent Hname)
    as (db' & category & Hcreate & Hcats & Hid & Hfree & Hpar & Hcount & Hn).
  exists db', category.
  unfold CategoryService.get_by_id, CategoryService.get_by_slug. rewrite Hcats.
  split_and!; [done| | |done|done| |done|done| | |].
  - by apply get_add_fresh.
  - by apply head_filter_add_new.
  - rewrite Hpar. apply (new_category_not_own_parent db); [|done].
    intros pid Hp. by apply Hparent.
  - intros Hnd. by apply (NoDup_keys_add cat_id).
  - intros Hnd. by apply NoDup_slugs_add.
  - intros Hnd. apply NoDup_slugs_add; [done|].
    rewrite Hn. by rewrite held_elem_of.
Qed.

Lemma create_category_checked_witness :
  CategoriesApi.create_category (λ s, s) two_categories_db
    (mkCategoryCreate "Chess" (Some 7) true true 0)
  = (two_categories_db, Err (HTTPException HTTP_400_BAD_REQUEST)) ∧
  CategoriesApi.create_category (λ s, s) two_categories_db
    (mkCategoryCreate "Sport" (Some 2) true true 0)
  = (two_categories_db, Err IntegrityError) ∧
  ∃ db' category,
    CategoriesApi.create_category (λ s, s) two_categories_db
      (mkCategoryCreate "Chess" (Some 2) true true 0) = (db', Ok category) ∧
    CategoryService.get_by_id db' (cat_id category) = Some category ∧
    CategoryService.get_by_slug db' (cat_slug category) = Some category ∧
    cat_name category = "Chess" ∧
    cat_parent_id category = Some 2 ∧
    cat_parent_id category ≠ Some (cat_id category) ∧
    cat_posts_count category = 0 ∧
    categories db' = categories two_categories_db ++ [category] ∧
    (NoDup (cat_id <$> categories two_categories_db) → NoDup (cat_id <$> categories db')) ∧
    (NoDup (cat_slug <$> categories two_categories_db) → NoDup (cat_slug <$> categories db')) ∧
    (NoDup (cat_name <$> categories two_categories_db) → NoDup (cat_name <$> categories db')).
Proof.
  split_and!.
  - apply (proj1 (create_category_checked (λ s, s) two_categories_db
                    (mkCategoryCreate "Chess" (Some 7) true true 0)) 7).
    + reflexivity.
    + discriminate.
    + reflexivity.
  - apply (proj2 (create_category_checked (λ s, s) two_categories_db
                    (mkCategoryCreate "Sport" (Some 2) true true 0))).
    + intros parent_id [= <-] _. eexists. reflexivity.
    + apply (bool_decide_unpack _). by vm_compute.
  - apply (proj2 (create_category_checked (λ s, s) two_categories_db
                    (mkCategoryCreate "Chess" (Some 2) true true 0))).
    + intros parent_id [= <-] _. eexists. reflexivity.
    + apply (bool_decide_unpack _). by vm_compute.
Defined.

(** ** Renaming: the slug loop that skips the row's own slug *)

Lemma first_free_slug_iff (P Q : string → Prop) base slug :
  (∀ s, P s ↔ Q s) → first_free_slug P base slug → first_free_slug Q base slug.
Proof.
  intros HPQ (H1 & H2 & H3). split_and!.
  - by rewrite <- HPQ.
  - rewrite <- HPQ. exact H2.
  - rewrite <- HPQ. intros HP. destruct (H3 HP) as (n & ? & ? & Hall).
    exists n. split_and!; [done..|]. intros m Hm. apply HPQ, Hall, Hm.
Qed.

Section rename_facts.
Context {A : Type} (key : A → Z) (slug_of : A → string) (rows : list A) (own : Z).

Let taken_other (s : string) : bool :=
  match head (filter (λ r, slug_of r = s) rows) with
  | Some existing => bool_decide (key existing ≠ own)
  | None => false
  end.

Lemma slug_unique (x y : A) :
  NoDup (slug_of <$> rows) → x ∈ rows → y ∈ rows → slug_of x = slug_of y → x = y.
Proof.
  clear taken_other. induction rows as [|z t IH]; [by intros _ ?%elem_of_nil|].
  rewrite fmap_cons, NoDup_cons. intros [Hz Hnd] Hx Hy Hk.
  apply elem_of_cons in Hx as [->|Hx], Hy as [->|Hy]; [done| | |by apply IH].
  - destruct Hz. rewrite Hk. apply list_elem_of_fmap. eauto.
  - destruct Hz. rewrite <- Hk. apply list_elem_of_fmap. eauto.
Qed.

Lemma taken_other_iff s :
  NoDup (slug_of <$> rows) →
  taken_other s = true ↔ ∃ r, r ∈ rows ∧ slug_of r = s ∧ key r ≠ own.
Proof.
  intros Hnd. unfold taken_other.
  destruct (head (filter (λ r, slug_of r = s) rows)) as [ex|] eqn:Hhead.
  - apply head_Some_elem_of, list_elem_of_filter in Hhead as [Hs Hex].
    rewrite bool_decide_eq_true. split; [eauto|].
    intros (r & Hr & Hrs & Hk). by rewrite (slug_unique ex r Hnd Hex Hr) by congruence.
  - split; [done|]. intros (r & Hr & Hrs & _). apply head_None in Hhead.
    by destruct (filter_nil_not_elem_of (λ r, slug_of r = s) rows r Hhead Hrs).
Qed.

Lemma rename_loop_spec base :
  ∃ slug, Slug.loop (S (length rows)) taken_other base base 1%N = Some slug ∧
          first_free_slug (λ s, taken_other s = true) base slug.
Proof.
  apply (unique_slug_spec slug_of rows). intros s. unfold taken_other, held.
  destruct (head _); [eauto|done].
Qed.

(** Writing a slug no other row holds over the slug of one row keeps
    the column unique. *)
Lemma NoDup_slugs_put (row row' : A) :
  NoDup (key <$> rows) → NoDup (slug_of <$> rows) → row ∈ rows →
  key row = own → key row' = own →
  (∀ r, r ∈ rows → slug_of r = slug_of row' → key r = own) →
  NoDup (slug_of <$> Table.put key row' rows).
Proof.
  clear taken_other. intros Hk Hs Hin Hrow Hrow' Hfree.
  destruct (table_split key rows row Hk Hin) as (l1 & l2 & Hrows & Hne).
  rewrite Hrows in *. rewrite (put_split key l1 l2 row row' Hne) by congruence.
  rewrite fmap_app, fmap_cons in *.
  apply NoDup_app in Hs as (Hl1 & Hdisj & [_ Hl2]%NoDup_cons).
  assert (∀ r, r ∈ l1 ++ l2 → slug_of r ≠ slug_of row') as Hnew.
  { intros r Hr Heq. apply (Hne r Hr). rewrite Hrow. apply Hfree; [|done].
    rewrite elem_of_app, elem_of_cons. rewrite elem_of_app in Hr. tauto. }
  apply NoDup_app. split_and!; [done| |].
  - intros s Hs1 [->|Hs2]%elem_of_cons.
    + apply list_elem_of_fmap in Hs1 as (r & Heq & Hr).
      apply (Hnew r); [apply elem_of_app; by left|done].
    + apply (Hdisj s Hs1). by right.
  - apply NoDup_cons. split; [|done].
    intros (r & Heq & Hr)%list_elem_of_fmap.
    apply (Hnew r); [apply elem_of_app; by right|done].
Qed.

End rename_facts.

(** The slug an update of a category writes is its old slug or a slug no
    other row holds. *)
Lemma category_update_slug slugify db category data :
  NoDup (cat_slug <$> categories db) →
  cu_name data ≠ Some None →
  ∃ slug,
    CategoryService.update_slug slugify db category data = Ok slug ∧
    (cu_name data = None → slug = cat_slug category) ∧
    (∀ name, cu_name data = Some (Some name) →
       if decide (slugify name = cat_slug category) then slug = cat_slug category
       else first_free_slug
              (λ s, ∃ r, r ∈ categories db ∧ cat_slug r = s ∧
                         cat_id r ≠ cat_id category)
              (slugify name) slug) ∧
    (category ∈ categories db →
     ∀ r, r ∈ categories db → cat_slug r = slug → cat_id r = cat_id category).
Proof.
  intros Hnd Hnull. unfold CategoryService.update_slug.
  assert (category ∈ categories db →
          ∀ r, r ∈ categories db → cat_slug r = cat_slug category →
               cat_id r = cat_id category) as Hown.
  { intros Hin r Hr Hs. by rewrite (slug_unique cat_slug _ r category Hnd Hr Hin Hs). }
  destruct (cu_name data) as [[name|]|]; [|done|].
  2:{ exists (cat_slug category). split_and!; [done|done|intros ? [=]|done]. }
  destruct (decide (slugify name ≠ cat_slug category)) as [Hne|Heq].
  - destruct (rename_loop_spec cat_id cat_slug (categories db) (cat_id category)
                (slugify name)) as (slug & Hloop & Hfree).
    exists slug. split.
    { unfold CategoryService.get_by_slug. cbv zeta in Hloop. by rewrite Hloop. }
    split; [done|]. split.
    + intros ? [= <-]. rewrite decide_False by done.
      eapply first_free_slug_iff; [|exact Hfree].
      intros s. by apply taken_other_iff.
    + intros _ r Hr Hs. destruct Hfree as [Hfree _].
      destruct (decide (cat_id r = cat_id category)) as [|Hk]; [done|].
      destruct Hfree. apply taken_other_iff; eauto.
  - exists (cat_slug category). split; [done|]. split; [done|]. split; [|done].
    intros ? [= <-]. rewrite decide_True; [done|].
    by destruct (decide (slugify name = cat_slug category)).
Qed.

Lemma written_Some {A : Type} (old : A) (new : option (option A)) :
  new ≠ Some None →
  written old new = Some (match new with Some (Some v) => v | _ => old end).
Proof. by destruct new as [[v|]|]. Qed.

Lemma name_clash_iff db category name :
  CategoryService.name_clash db category name ↔
  ∃ c, c ∈ categories db ∧ cat_id c ≠ cat_id category ∧ cat_name c = name.
Proof. unfold CategoryService.name_clash. by rewrite Exists_exists. Qed.

(** X6.  Updating a category of a table with unique ids, slugs and
    names.  A null name raises in [slugify]; a null in one of the other
    NOT NULL columns, or a name another row carries, is refused at the
    flush.  Every other update succeeds and keeps ids, slugs and names
    unique: the id and the post count stay, the row read back by id is
    the updated one, the name is the one asked for, and the slug stays
    when the name is not set or slugifies to the current slug; otherwise
    it is the first candidate no other row holds. *)
Theorem category_update_keeps_unique (slugify : string → string) (db : Db)
    (category : Category) (data : CategoryUpdate) :
  NoDup (cat_id <$> categories db) →
  NoDup (cat_slug <$> categories db) →
  NoDup (cat_name <$> categories db) →
  category ∈ categories db →
  (cu_name data = Some None →
   CategoryService.update slugify db category data = Err TypeError) ∧
  (cu_name data ≠ Some None →
   cu_is_active data = Some None ∨ cu_show_in_menu data = Some None ∨
   cu_position data = Some None →
   CategoryService.update slugify db category data = Err IntegrityError) ∧
  (∀ name, cu_name data = Some (Some name) →
     (∃ c, c ∈ categories db ∧ cat_id c ≠ cat_id category ∧ cat_name c = name) →
     CategoryService.update slugify db category data = Err IntegrityError) ∧
  (cu_name data ≠ Some None → cu_is_active data ≠ Some None →
   cu_show_in_menu data ≠ Some None → cu_position data ≠ Some None →
   (∀ name, cu_name data = Some (Some name) →
      ∀ c, c ∈ categories db → cat_name c = name → cat_id c = cat_id category) →
   ∃ db' updated,
     CategoryService.update slugify db category data = Ok (db', updated) ∧
     CategoryService.get_by_id db' (cat_id category) = Some updated ∧
     cat_id updated = cat_id category ∧
     cat_posts_count updated = cat_posts_count category ∧
     cat_name updated = default (cat_name category) (mjoin (cu_name data)) ∧
     NoDup (cat_id <$> categories db') ∧
     NoDup (cat_slug <$> categories db') ∧
     NoDup (cat_name <$> categories db') ∧
     (cu_name data = None → cat_slug updated = cat_slug category) ∧
     (∀ name, cu_name data = Some (Some name) →
        if decide (slugify name = cat_slug category)
        then cat_slug updated = cat_slug category
        else first_free_slug
               (λ s, ∃ r, r ∈ categories db ∧ cat_slug r = s ∧
                          cat_id r ≠ cat_id category)
               (slugify name) (cat_slug updated))).
Proof.
  intros Hk Hs Hn Hin. unfold CategoryService.update. split_and!.
  - intros Hnull. unfold CategoryService.update_slug. by rewrite Hnull.
  - intros Hname Hnull.
    destruct (category_update_slug slugify db category data Hs Hname)
      as (slug & -> & _).
    rewrite (written_Some _ (cu_name data)) by done.
    destruct Hnull as [-> | [-> | ->]]; cbn [written].
    + done.
    + by destruct (written (cat_is_active category) (cu_is_active data)).
    + by destruct (written (cat_is_active category) (cu_is_active data)), (written (cat_show_in_menu category) (cu_show_in_menu data)).
  - intros name Hname Hclash.
    destruct (category_update_slug slugify db category data Hs) as (slug & -> & _).
    { by rewrite Hname. }
    rewrite Hname. cbn [written].
    destruct (written (cat_is_active category) (cu_is_active data)); [|done].
    destruct (written (cat_show_in_menu category) (cu_show_in_menu data)); [|done].
    destruct (written (cat_position category) (cu_position data)); [|done].
    rewrite decide_True; [done|]. by apply name_clash_iff.
  - intros Hname Hact Hmenu Hpos Hfree_name.
    destruct (category_update_slug slugify db category data Hs Hname)
      as (slug & -> & Hnone & Hslug & Hfree).
    rewrite !written_Some by done.
    set (name := match cu_name data with Some (Some v) => v | _ => cat_name category end).
    assert (∀ c, c ∈ categories db → cat_name c = name → cat_id c = cat_id category)
      as Hfree_name'.
    { unfold name. destruct (cu_name data) as [[n|]|] eqn:Hcu; [by eapply Hfree_name|done|].
      intros c Hc Heq. by rewrite (slug_unique cat_name _ c category Hn Hc Hin Heq). }
    rewrite decide_False.
    2:{ intros (c & Hc & Hne & Heq)%name_clash_iff. by apply Hne, Hfree_name'. }
    eexists _, _. split; [reflexivity|].
    cbn [categories set_categories cat_id cat_slug cat_name cat_posts_count].
    split_and!; [|done|done| | | | |done|done].
    + unfold CategoryService.get_by_id. cbn [categories set_categories].
      apply (get_put cat_id _ _ category); [|done].
      unfold Table.get.
      destruct (table_split cat_id _ category Hk Hin) as (l1 & l2 & -> & Hne).
      rewrite filter_app, filter_cons_True by done.
      rewrite (filter_none (λ r, cat_id r = cat_id category) l1); [done|].
      intros r Hr. apply Hne, elem_of_app. by left.
    + unfold name. by destruct (cu_name data) as [[n|]|].
    + by rewrite put_keys.
    + apply (NoDup_slugs_put cat_id cat_slug _ (cat_id category) category);
        [done..|]. cbn [cat_slug]. by apply Hfree.
    + apply (NoDup_slugs_put cat_id cat_name _ (cat_id category) category);
        [done..|]. cbn [cat_name]. done.
Qed.

(** Sport is renamed to "news": no row carries that name, the slug
    "news" is held by another row, and the update goes through with the
    slug "news-1". *)
Lemma category_update_keeps_unique_witness :
  ∃ db' updated,
    CategoryService.update (λ s, s) two_categories_db
      (mkCategory 2 "Sport" "sport" (Some 1) true true 0 0)
      (mkCategoryUpdate (Some (Some "news")) None None None None) = Ok (db', updated) ∧
    CategoryService.get_by_id db' 2 = Some updated ∧
    cat_id updated = 2 ∧
    cat_posts_count updated = 0 ∧
    cat_name updated = "news" ∧
    NoDup (cat_id <$> categories db') ∧
    NoDup (cat_slug <$> categories db') ∧
    NoDup (cat_name <$> categories db') ∧
    (Some (Some "news") = None → cat_slug updated = "sport") ∧
    (∀ name, Some (Some "news") = Some (Some name) →
       if decide (name = "sport")
       then cat_slug updated = "sport"
       else first_free_slug
              (λ s, ∃ r, r ∈ categories two_categories_db ∧ cat_slug r = s ∧
                         cat_id r ≠ 2)
              name (cat_slug updated)).
Proof.
  destruct (category_update_keeps_unique (λ s, s) two_categories_db
              (mkCategory 2 "Sport" "sport" (Some 1) true true 0 0)
              (mkCategoryUpdate (Some (Some "news")) None None None None))
    as (_ & _ & _ & Haccepted).
  - apply (bool_decide_unpack _). by vm_compute.
  - apply (bool_decide_unpack _). by vm_compute.
  - apply (bool_decide_unpack _). by vm_compute.
  - right. left.
  - apply Haccepted; [done..|].
    intros name [= <-] c Hc Hname.
    apply elem_of_cons in Hc as [->|Hc]; [done|].
    apply list_elem_of_singleton in Hc as ->. done.
Defined.

Example rename_to_taken_slug :
  CategoryService.update_slug (λ s, s) two_categories_db
    (mkCategory 2 "Sport" "sport" (Some 1) true true 0 0)
    (mkCategoryUpdate (Some (Some "news")) None None None None) = Ok "news-1".
Proof. vm_compute. reflexivity. Qed.

(** Renaming Sport to the name of the other row, or setting a flag to
    null, is refused. *)
Example rename_to_taken_name :
  CategoriesApi.update_category (λ s, s) two_categories_db 2
    (mkCategoryUpdate (Some (Some "News")) None None None None)
  = (two_categories_db, Err IntegrityError) ∧
  CategoriesApi.update_category (λ s, s) two_categories_db 2
    (mkCategoryUpdate None None (Some None) None None)
  = (two_categories_db, Err IntegrityError) ∧
  CategoriesApi.update_category (λ s, s) two_categories_db 2
    (mkCategoryUpdate (Some None) None None None None)
  = (two_categories_db, Err TypeError).
Proof. split_and!; vm_compute; reflexivity. Qed.

Lemma post_update_slug slugify db post data :
  NoDup (post_slug <$> posts db) →
  pu_title data ≠ Some None →
  ∃ slug,
    PostOps.update_slug slugify db post data = Ok slug ∧
    (pu_title data = None → slug = post_slug post) ∧
    (∀ title, pu_title data = Some (Some title) →
       if decide (slugify title = post_slug post) then slug = post_slug post
       else first_free_slug
              (λ s, ∃ r, r ∈ posts db ∧ post_slug r = s ∧ post_id r ≠ post_id post)
              (slugify title) slug) ∧
    (post ∈ posts db →
     ∀ r, r ∈ posts db → post_slug r = slug → post_id r = post_id post).
Proof.
  intros Hnd Hnull. unfold PostOps.update_slug.
  assert (post ∈ posts db →
          ∀ r, r ∈ posts db → post_slug r = post_slug post →
               post_id r = post_id post) as Hown.
  { intros Hin r Hr Hs. by rewrite (slug_unique post_slug _ r post Hnd Hr Hin Hs). }
  destruct (pu_title data) as [[title|]|]; [|done|].
  2:{ exists (post_slug post). split_and!; [done|done|intros ? [=]|done]. }
  destruct (decide (slugify title ≠ post_slug post)) as [Hne|Heq].
  - destruct (rename_loop_spec post_id post_slug (posts db) (post_id post)
                (slugify title)) as (slug & Hloop & Hfree).
    exists slug. split.
    { unfold PostService.get_by_slug. cbv zeta in Hloop. by rewrite Hloop. }
    split; [done|]. split.
    + intros ? [= <-]. rewrite decide_False by done.
      eapply first_free_slug_iff; [|exact Hfree].
      intros s. by apply taken_other_iff.
    + intros _ r Hr Hs. destruct Hfree as [Hfree _].
      destruct (decide (post_id r = post_id post)) as [|Hk]; [done|].
      destruct Hfree. apply taken_other_iff; eauto.
  - exists (post_slug post). split; [done|]. split; [done|]. split; [|done].
    intros ? [= <-]. rewrite decide_True; [done|].
    by destruct (decide (slugify title = post_slug post)).
Qed.

(** X7.  Updating a post of a table with unique ids and unique slugs.
    A null title raises in [slugify]; a null in another NOT NULL column
    is refused at the flush.  Every other update succeeds and keeps ids
    and slugs unique: the id, the rating and the vote count stay, the
    row read back by id is the updated one, the title is the one asked
    for, the slug stays when the title is not set or slugifies to the
    current slug (otherwise it is the first candidate no other post
    holds), and the categories are replaced exactly when the request
    sets them. *)
Theorem post_update_keeps_unique (slugify : string → string) (db : Db)
    (post : Post) (data : PostUpdate) :
  NoDup (post_id <$> posts db) →
  NoDup (post_slug <$> posts db) →
  post ∈ posts db →
  (pu_title data = Some None →
   PostOps.update slugify db post data = Err TypeError) ∧
  (pu_title data ≠ Some None →
   pu_is_published data = Some None ∨ pu_null_column data →
   PostOps.update slugify db post data = Err IntegrityError) ∧
  (pu_title data ≠ Some None → pu_is_published data ≠ Some None →
   ¬ pu_null_column data →
   ∃ db' updated,
     PostOps.update slugify db post data = Ok (db', updated) ∧
     PostService.get_by_id db' (post_id post) = Some updated ∧
     post_id updated = post_id post ∧
     post_rating updated = post_rating post ∧
     post_votes_count updated = post_votes_count post ∧
     post_title updated = default (post_title post) (mjoin (pu_title data)) ∧
     NoDup (post_id <$> posts db') ∧
     NoDup (post_slug <$> posts db') ∧
     (pu_title data = None → post_slug updated = post_slug post) ∧
     (∀ title, pu_title data = Some (Some title) →
        if decide (slugify title = post_slug post)
        then post_slug updated = post_slug post
        else first_free_slug
               (λ s, ∃ r, r ∈ posts db ∧ post_slug r = s ∧ post_id r ≠ post_id post)
               (slugify title) (post_slug updated)) ∧
     post_categories updated =
       match pu_category_ids data with
       | Some ids => cat_id <$> filter (λ c, cat_id c ∈ ids) (categories db)
       | None => post_categories post
       end).
Proof.
  intros Hk Hs Hin. unfold PostOps.update. split_and!.
  - intros Hnull. unfold PostOps.update_slug. by rewrite Hnull.
  - intros Htitle Hnull.
    destruct (post_update_slug slugify db post data Hs Htitle) as (slug & -> & _).
    rewrite (written_Some _ (pu_title data)) by done.
    destruct Hnull as [-> | Hnull]; cbn [written]; [done|].
    destruct (written (post_is_published post) (pu_is_published data)); [|done].
    by rewrite decide_True.
  - intros Htitle Hpub Hnull.
    destruct (post_update_slug slugify db post data Hs Htitle)
      as (slug & -> & Hnone & Hslug & Hfree).
    rewrite !written_Some by done. rewrite decide_False by done.
    assert (Table.get post_id (post_id post) (posts db) = Some post) as Hget.
    { unfold Table.get.
      destruct (table_split post_id _ post Hk Hin) as (l1 & l2 & -> & Hne).
      rewrite filter_app, filter_cons_True by done.
      rewrite (filter_none (λ r, post_id r = post_id post) l1); [done|].
      intros r Hr. apply Hne, elem_of_app. by left. }
    assert (match pu_title data with Some (Some v) => v | _ => post_title post end
            = default (post_title post) (mjoin (pu_title data))) as Htitle'.
    { by destruct (pu_title data) as [[t|]|]. }
    destruct (pu_category_ids data) as [ids|].
    + eexists _, _. split; [reflexivity|].
      unfold PostService._set_categories, PostService.get_by_id.
      cbn [posts categories set_posts post_id post_slug post_rating post_title
           post_votes_count post_categories post_set_categories fst snd].
      rewrite put_put_key by done.
      split_and!; [|done|done|done|done| | |done|done|done].
      * by apply (get_put post_id _ _ post).
      * by rewrite put_keys.
      * apply (NoDup_slugs_put post_id post_slug _ (post_id post) post);
          [done..|]. cbn [post_slug]. by apply Hfree.
    + eexists _, _. split; [reflexivity|].
      unfold PostService.get_by_id.
      cbn [posts categories set_posts post_id post_slug post_rating post_title
           post_votes_count post_categories].
      split_and!; [|done|done|done|done| | |done|done|done].
      * by apply (get_put post_id _ _ post).
      * by rewrite put_keys.
      * apply (NoDup_slugs_put post_id post_slug _ (post_id post) post);
          [done..|]. cbn [post_slug]. by apply Hfree.
Qed.

(** ** Deleting and re-parenting through the endpoints *)

(** X8.  After an accepted DELETE /categories/{id} the category can no
    longer be read and no remaining category has it as parent.  Its
    children stay in the table and become roots; every other category
    is still there unchanged; no row is added.  Every post stays, with
    the category taken off its list and nothing else changed.  The
    rating and comment tables are untouched. *)
Theorem delete_category_effects (db db' : Db) (category_id : Z) :
  CategoriesApi.delete_category db category_id = (db', Ok ()) →
  CategoryService.get_by_id db' category_id = None ∧
  (∀ c, c ∈ categories db' → cat_parent_id c ≠ Some category_id) ∧
  (∀ c, c ∈ categories db → cat_id c ≠ category_id →
        cat_parent_id c = Some category_id →
        cat_set_parent_id c None ∈ categories db') ∧
  (∀ c, c ∈ categories db → cat_id c ≠ category_id →
        cat_parent_id c ≠ Some category_id → c ∈ categories db') ∧
  (∀ c', c' ∈ categories db' →
         ∃ c, c ∈ categories db ∧ cat_id c ≠ category_id ∧
              (c' = c ∨ (cat_parent_id c = Some category_id ∧
                         c' = cat_set_parent_id c None))) ∧
  length (categories db') = length (Table.remove cat_id category_id (categories db)) ∧
  posts db' =
    (λ p, post_set_categories p (filter (λ i, i ≠ category_id) (post_categories p)))
      <$> posts db ∧
  (∀ p, p ∈ posts db' → category_id ∉ post_categories p) ∧
  post_id <$> posts db' = post_id <$> posts db ∧
  post_ratings db' = post_ratings db ∧
  comments db' = comments db ∧
  comment_votes db' = comment_votes db.
Proof.
  unfold CategoriesApi.delete_category.
  destruct (CategoryService.get_by_id db category_id) as [category|] eqn:Hget; [|done].
  apply get_Some in Hget as [Hin Hid].
  destruct (decide (cat_posts_count category > 0)); [done|].
  intros [= <-]. unfold CategoryService.delete, CategoryService.get_by_id.
  cbn [posts post_ratings categories comments comment_votes set_posts set_categories].
  rewrite Hid. split_and!; [| | | | | |done| | |done..].
  - apply get_None. intros r (c & -> & Hc)%list_elem_of_fmap.
    unfold Table.remove in Hc. apply list_elem_of_filter in Hc as [Hne _].
    by destruct (decide (cat_parent_id c = Some category_id)).
  - intros r (c & -> & Hc)%list_elem_of_fmap.
    by destruct (decide (cat_parent_id c = Some category_id)).
  - intros c Hc Hne Hpar. apply list_elem_of_fmap. exists c. split.
    + by rewrite decide_True.
    + unfold Table.remove. by apply list_elem_of_filter.
  - intros c Hc Hne Hpar. apply list_elem_of_fmap. exists c. split.
    + by rewrite decide_False.
    + unfold Table.remove. by apply list_elem_of_filter.
  - intros c' (c & -> & Hc)%list_elem_of_fmap.
    unfold Table.remove in Hc. apply list_elem_of_filter in Hc as [Hne Hc].
    exists c. split_and!; [done..|].
    destruct (decide (cat_parent_id c = Some category_id)); auto.
  - by rewrite length_fmap.
  - intros r (p & -> & Hp)%list_elem_of_fmap. cbn [post_categories post_set_categories].
    intros Hc. apply list_elem_of_filter in Hc as [Hne _]. done.
  - rewrite <- list_fmap_compose. by apply list_fmap_ext.
Qed.

(** News is deleted; Drafts, its child, stays and becomes a root. *)
Lemma delete_category_effects_witness :
  let db' := (CategoriesApi.delete_category inactive_child_db 1).1 in
  CategoryService.get_by_id db' 1 = None ∧
  (∀ c, c ∈ categories db' → cat_parent_id c ≠ Some 1) ∧
  (∀ c, c ∈ categories inactive_child_db → cat_id c ≠ 1 →
        cat_parent_id c = Some 1 →
        cat_set_parent_id c None ∈ categories db') ∧
  (∀ c, c ∈ categories inactive_child_db → cat_id c ≠ 1 →
        cat_parent_id c ≠ Some 1 → c ∈ categories db') ∧
  (∀ c', c' ∈ categories db' →
         ∃ c, c ∈ categories inactive_child_db ∧ cat_id c ≠ 1 ∧
              (c' = c ∨ (cat_parent_id c = Some 1 ∧
                         c' = cat_set_parent_id c None))) ∧
  length (categories db') = length (Table.remove cat_id 1 (categories inactive_child_db)) ∧
  posts db' =
    (λ p, post_set_categories p (filter (λ i, i ≠ 1) (post_categories p)))
      <$> posts inactive_child_db ∧
  (∀ p, p ∈ posts db' → 1 ∉ post_categories p) ∧
  post_id <$> posts db' = post_id <$> posts inactive_child_db ∧
  post_ratings db' = post_ratings inactive_child_db ∧
  comments db' = comments inactive_child_db ∧
  comment_votes db' = comment_votes inactive_child_db.
Proof.
  apply (delete_category_effects inactive_child_db
           (CategoriesApi.delete_category inactive_child_db 1).1 1).
  reflexivity.
Defined.

Example delete_orphans_children :
  categories (CategoriesApi.delete_category inactive_child_db 1).1
  = [mkCategory 2 "Drafts" "drafts" None false true 0 0].
Proof. reflexivity. Qed.

(** X9.  PATCH /categories/{id}.  An unknown id is answered with 404 and
    nothing is written.  An accepted update keeps the id, stores the
    [parent_id] of the body as it is when the body sets one (the parent
    is not looked up) and keeps the old one otherwise; for a non-zero id
    the stored parent is then never the category itself. *)
Theorem update_category_parent (slugify : string → string) (db : Db)
    (category_id : Z) (data : CategoryUpdate) :
  (CategoryService.get_by_id db category_id = None →
   CategoriesApi.update_category slugify db category_id data
   = (db, Err (HTTPException HTTP_404_NOT_FOUND))) ∧
  (∀ db' updated,
     CategoriesApi.update_category slugify db category_id data = (db', Ok updated) →
     ∃ category,
       CategoryService.get_by_id db category_id = Some category ∧
       cat_id updated = category_id ∧
       cat_parent_id updated = default (cat_parent_id category) (cu_parent_id data) ∧
       (category_id ≠ 0 → is_Some (cu_parent_id data) →
        cat_parent_id updated ≠ Some category_id)).
Proof.
  split.
  - intros Hget. unfold CategoriesApi.update_category. by rewrite Hget.
  - intros db' updated. unfold CategoriesApi.update_category.
    destruct (CategoryService.get_by_id db category_id) as [category|] eqn:Hget;
      [|done].
    pose proof (get_Some cat_id _ _ _ Hget) as [_ Hid].
    destruct (truthy (cu_parent_id_attr data) &&
              bool_decide (cu_parent_id_attr data = Some category_id)) eqn:Hguard;
      [done|].
    unfold CategoryService.update.
    destruct (CategoryService.update_slug slugify db category data) as [slug|];
      [|done].
    destruct (written (cat_name category) (cu_name data)) as [name|]; [|done].
    destruct (written (cat_is_active category) (cu_is_active data)); [|done].
    destruct (written (cat_show_in_menu category) (cu_show_in_menu data)); [|done].
    destruct (written (cat_position category) (cu_position data)); [|done].
    destruct (decide (CategoryService.name_clash db category name)); [done|].
    intros [= <- <-]. exists category. cbn [cat_id cat_parent_id].
    split_and!; [done..|].
    intros Hnz [p Hp]. rewrite Hp. cbn [default from_option id]. intros ->.
    unfold cu_parent_id_attr in Hguard. rewrite Hp in Hguard.
    cbn [default from_option id truthy] in Hguard.
    rewrite bool_decide_true in Hguard by done.
    by destruct (Z.eqb_spec category_id 0).
Qed.

Lemma update_category_parent_witness :
  CategoriesApi.update_category (λ s, s) two_categories_db 9 (set_parent 1)
  = (two_categories_db, Err (HTTPException HTTP_404_NOT_FOUND)) ∧
  ∃ category,
    CategoryService.get_by_id two_categories_db 2 = Some category ∧
    cat_id (mkCategory 2 "Sport" "sport" (Some 7) true true 0 0) = 2 ∧
    cat_parent_id (mkCategory 2 "Sport" "sport" (Some 7) true true 0 0)
      = default (cat_parent_id category) (cu_parent_id (set_parent 7)) ∧
    (2 ≠ 0 → is_Some (cu_parent_id (set_parent 7)) →
     cat_parent_id (mkCategory 2 "Sport" "sport" (Some 7) true true 0 0) ≠ Some 2).
Proof.
  split.
  - apply (proj1 (update_category_parent (λ s, s) two_categories_db 9 (set_parent 1))).
    reflexivity.
  - apply (proj2 (update_category_parent (λ s, s) two_categories_db 2 (set_parent 7))
             (mkDb [] [] [mkCategory 1 "News" "news" None true true 0 0;
                          mkCategory 2 "Sport" "sport" (Some 7) true true 0 0] [] [])).
    reflexivity.
Defined.

(** ** Pages *)

Lemma pages_join {A : Type} (l : list A) (n m : nat) :
  mjoin ((λ k, take n (drop (k * n) l)) <$> seq 0 m) = take (m * n) l.
Proof.
  induction m as [|m IH]; [done|].
  rewrite seq_S, fmap_app, join_app, IH. simpl. rewrite app_nil_r.
  rewrite take_take_drop. f_equal. lia.
Qed.

Lemma page_count_covers (total per_page : Z) :
  0 ≤ total → 1 ≤ per_page →
  0 ≤ CommentsApi.page_count total per_page ∧
  total ≤ CommentsApi.page_count total per_page * per_page ∧
  (0 < total → (CommentsApi.page_count total per_page - 1) * per_page < total) ∧
  (total = 0 → CommentsApi.page_count total per_page = 0).
Proof.
  intros Ht Hp. unfold CommentsApi.page_count.
  pose proof (Z.div_mod (total + per_page - 1) per_page) as Hdm.
  pose proof (Z.mod_pos_bound (total + per_page - 1) per_page) as Hmod.
  assert (0 ≤ (total + per_page - 1) `div` per_page) by (apply Z.div_pos; lia).
  split_and!; [done|nia|nia|].
  intros ->. apply Z.div_small. lia.
Qed.

Lemma pages_join_all (db : Db) (post_id per_page : Z) (approved_only : bool) :
  1 ≤ per_page →
  let total := (CommentService.get_by_post db post_id 1 per_page approved_only).2 in
  mjoin ((λ k, (CommentService.get_by_post db post_id (Z.of_nat k + 1) per_page
                  approved_only).1.*1)
           <$> seq 0 (Z.to_nat (CommentsApi.page_count total per_page)))
    = merge_sort CommentService.pinned_newest_first
        (filter (CommentService.top_level post_id approved_only) (comments db)).
Proof.
  intros Hper total.
  unfold total in *. unfold CommentService.get_by_post in *. cbn [fst snd] in *.
  set (matching := filter (CommentService.top_level post_id approved_only) (comments db))
    in *.
  set (ordered := merge_sort CommentService.pinned_newest_first matching).
  set (pages := CommentsApi.page_count (Z.of_nat (length matching)) per_page).
  assert (length ordered = length matching) as Hlen.
  { unfold ordered. by rewrite merge_sort_Permutation. }
  destruct (page_count_covers (Z.of_nat (length matching)) per_page)
    as (Hp0 & Hcover & _); [lia|lia|]. fold pages in Hp0, Hcover.
  erewrite list_fmap_ext.
  - rewrite (pages_join ordered (Z.to_nat per_page) (Z.to_nat pages)).
    apply take_ge. rewrite Hlen. apply Nat2Z.inj_le.
    rewrite Nat2Z.inj_mul, !Z2Nat.id by lia. done.
  - intros _ k _. simpl. rewrite <- list_fmap_compose. rewrite list_fmap_id.
    do 2 f_equal. replace (Z.of_nat k + 1 - 1) with (Z.of_nat k) by lia.
    rewrite Z2Nat.inj_mul, Nat2Z.id by lia. done.
Qed.



Example thread_has_two_pages :
  CommentsApi.page_count (CommentService.get_by_post thread_db 1 1 2 true).2 2 = 2.
Proof. reflexivity. Qed.

(** ** Latest and pending comments *)

Global Instance newest_first_total : Total newest_first.
Proof. intros a b. unfold newest_first. lia. Qed.

Global Instance newest_first_trans : Transitive newest_first.
Proof. intros a b c. unfold newest_first. lia. Qed.

(** X11.  [get_latest] returns approved comments of the table only,
    newest first, as many as [limit] allows; no approved comment left
    out is newer than one returned; and all approved comments are
    returned when [limit] is at least their number. *)
Theorem latest_comments (db : Db) (limit : Z) :
  let latest := CommentOps.get_latest db limit in
  let approved := filter (λ c, com_is_approved c = true) (comments db) in
  Forall (λ c, com_is_approved c = true ∧ c ∈ comments db) latest ∧
  StronglySorted newest_first latest ∧
  length latest = min (Z.to_nat limit) (length approved) ∧
  (∀ c, c ∈ approved → c ∉ latest →
        Forall (λ l, com_created_at c ≤ com_created_at l) latest) ∧
  (Z.of_nat (length approved) ≤ limit → latest ≡ₚ approved).
Proof.
  intros latest approved. unfold latest, CommentOps.get_latest. fold approved.
  set (ordered := merge_sort newest_first approved).
  assert (StronglySorted newest_first ordered) as Hsorted
    by apply (StronglySorted_merge_sort _).
  assert (ordered ≡ₚ approved) as Hperm by apply merge_sort_Permutation.
  split_and!.
  - apply Forall_forall. intros c Hc. apply subseteq_take in Hc.
    rewrite Hperm in Hc. by apply list_elem_of_filter in Hc.
  - rewrite <- (take_drop (Z.to_nat limit) ordered) in Hsorted.
    by apply StronglySorted_app_1_l in Hsorted.
  - by rewrite length_take, Hperm.
  - intros c Hc Hout. apply Forall_forall. intros l Hl.
    rewrite <- Hperm, <- (take_drop (Z.to_nat limit) ordered) in Hc.
    apply elem_of_app in Hc as [Hc|Hc]; [done|].
    rewrite <- (take_drop (Z.to_nat limit) ordered) in Hsorted.
    apply (StronglySorted_app_1_elem_of _ _ _ l c Hsorted Hl Hc).
  - intros Hall. rewrite take_ge; [done|]. rewrite Hperm. lia.
Qed.

Lemma pending_count_app (l1 l2 : list Comment) :
  length (filter (λ c, com_is_approved c = false) (l1 ++ l2))
  = (length (filter (λ c, com_is_approved c = false) l1)
     + length (filter (λ c, com_is_approved c = false) l2))%nat.
Proof. by rewrite filter_app, length_app. Qed.

(** X12.  Creating a comment never raises the count of pending
    comments.  On a table with unique ids, approving a pending comment
    lowers that count by exactly one, approving an approved one leaves
    it, and pinning, unpinning and editing never change it. *)
Theorem pending_count_moves (db : Db) :
  (∀ data author_id now,
      CommentOps.get_pending_count (CommentService.create db data author_id now).1
      = CommentOps.get_pending_count db) ∧
  (∀ comment,
      NoDup (com_id <$> comments db) → comment ∈ comments db →
      CommentOps.get_pending_count (CommentService.approve db comment).1
      = CommentOps.get_pending_count db
        - (if com_is_approved comment then 0 else 1) ∧
      CommentOps.get_pending_count (CommentService.pin db comment).1
      = CommentOps.get_pending_count db ∧
      CommentOps.get_pending_count (CommentService.unpin db comment).1
      = CommentOps.get_pending_count db ∧
      ∀ content,
        CommentOps.get_pending_count (CommentService.update db comment content).1
        = CommentOps.get_pending_count db).
Proof.
  split.
  - intros data author_id now.
    unfold CommentOps.get_pending_count, CommentService.create, Table.add.
    cbn [fst comments set_comments]. rewrite pending_count_app.
    rewrite filter_cons_False by done. simpl. lia.
  - intros comment Hnd Hin.
    destruct (table_split com_id _ comment Hnd Hin) as (l1 & l2 & Hrows & Hne).
    unfold CommentOps.get_pending_count, CommentService.approve, CommentService.pin,
      CommentService.unpin, CommentService.update, CommentService.flush.
    cbn [fst comments set_comments]. rewrite Hrows.
    split_and!; [| | |intros content];
      rewrite !(put_split com_id l1 l2 comment) by done;
      rewrite !pending_count_app;
      rewrite !filter_cons; cbn [com_is_approved com_set_is_approved
        com_set_is_pinned com_set_content];
      destruct (com_is_approved comment);
      repeat match goal with
             | |- context [decide ?P] => destruct (decide P)
             end; simpl; try done; lia.
Qed.

(** ** Tags *)

Lemma tag_get_by_slug_app tags rest slug tag :
  TagService.get_by_slug tags slug = Some tag →
  TagService.get_by_slug (tags ++ rest) slug = Some tag.
Proof.
  unfold TagService.get_by_slug. rewrite filter_app.
  destruct (filter _ tags); [done|]. done.
Qed.

Lemma tag_get_by_slug_Some tags slug tag :
  TagService.get_by_slug tags slug = Some tag → tag_slug tag = slug ∧ tag ∈ tags.
Proof.
  unfold TagService.get_by_slug. intros H%head_Some_elem_of.
  by apply list_elem_of_filter in H.
Qed.

Lemma tag_get_or_create_found slugify tags name tag :
  TagService.get_by_slug tags (slugify name) = Some tag →
  TagService.get_or_create slugify tags name = (tags, tag).
Proof. intros H. unfold TagService.get_or_create. by rewrite H. Qed.

Lemma tag_get_or_create_new slugify tags name :
  TagService.get_by_slug tags (slugify name) = None →
  let tag := mkTag (Table.fresh tag_id tags) name (slugify name) 0 in
  TagService.get_or_create slugify tags name = (tags ++ [tag], tag) ∧
  TagService.get_by_slug (tags ++ [tag]) (slugify name) = Some tag ∧
  (NoDup (tag_slug <$> tags) → NoDup (tag_slug <$> tags ++ [tag])) ∧
  (NoDup (tag_id <$> tags) → NoDup (tag_id <$> tags ++ [tag])).
Proof.
  intros Hget tag.
  assert (¬ held tag_slug tags (tag_slug tag)) as Hfree.
  { unfold held. cbn [tag_slug tag]. unfold TagService.get_by_slug in Hget.
    rewrite Hget. by intros [? ?]. }
  split_and!.
  - unfold TagService.get_or_create. by rewrite Hget.
  - by apply (head_filter_add_new tag_slug tags tag).
  - intros Hnd. by apply NoDup_slugs_add.
  - intros Hnd. by apply (NoDup_keys_add tag_id tags tag).
Qed.

(** X13.  [get_or_create] returns a tag whose slug is the slugified
    name and which the table now holds under that slug; asking again
    returns the same tag and changes nothing; an existing slug leaves
    the table as it is, a new one appends one row with a fresh id and no
    posts; unique slugs and unique ids stay unique. *)
Theorem tag_get_or_create (slugify : string → string) (tags : list Tag)
    (name : string) :
  let r := TagService.get_or_create slugify tags name in
  tag_slug r.2 = slugify name ∧
  TagService.get_by_slug r.1 (slugify name) = Some r.2 ∧
  TagService.get_or_create slugify r.1 name = r ∧
  (is_Some (TagService.get_by_slug tags (slugify name)) → r.1 = tags) ∧
  (TagService.get_by_slug tags (slugify name) = None →
   r.1 = tags ++ [r.2] ∧ tag_name r.2 = name ∧ tag_posts_count r.2 = 0 ∧
   TagService.get_by_id r.1 (tag_id r.2) = Some r.2) ∧
  (NoDup (tag_slug <$> tags) → NoDup (tag_slug <$> r.1)) ∧
  (NoDup (tag_id <$> tags) → NoDup (tag_id <$> r.1)).
Proof.
  intros r. unfold r.
  destruct (TagService.get_by_slug tags (slugify name)) as [tag|] eqn:Hget.
  - rewrite (tag_get_or_create_found _ _ _ _ Hget). cbn [fst snd].
    pose proof (tag_get_by_slug_Some _ _ _ Hget) as [Hslug Hin].
    rewrite (tag_get_or_create_found _ _ _ _ Hget). by split_and!.
  - destruct (tag_get_or_create_new slugify tags name Hget) as (-> & Hnew & Hs & Hk).
    cbn [fst snd]. rewrite (tag_get_or_create_found _ _ _ _ Hnew).
    split_and!; [done|done|done|by intros [? ?]| |done|done].
    intros _. split_and!; [done..|]. by apply (get_add_fresh tag_id).
Qed.

Lemma set_tags_shape slugify names : ∀ tags,
  let r := PostOps._set_tags slugify tags names in
  (∃ rest, r.1 = tags ++ rest ∧ (length rest ≤ length names)%nat) ∧
  Forall2 (λ name tag, TagService.get_by_slug r.1 (slugify name) = Some tag)
          names r.2 ∧
  (NoDup (tag_slug <$> tags) → NoDup (tag_slug <$> r.1)) ∧
  (NoDup (tag_id <$> tags) → NoDup (tag_id <$> r.1)).
Proof.
  induction names as [|name names IH]; intros tags; cbn [PostOps._set_tags].
  - cbn. split_and!; [exists []; by rewrite app_nil_r|constructor|done|done].
  - destruct (TagService.get_by_slug tags (slugify name)) as [tag|] eqn:Hget.
    + rewrite (tag_get_or_create_found _ _ _ _ Hget).
      specialize (IH tags). cbv zeta in IH.
      destruct (PostOps._set_tags slugify tags names) as [tags2 rest] eqn:Hr.
      cbn [fst snd] in *. destruct IH as ((more & -> & Hlen) & Hall & Hs & Hk).
      split_and!; [|constructor; [by apply tag_get_by_slug_app|done]|done|done].
      exists more. split; [done|]. simpl. lia.
    + destruct (tag_get_or_create_new slugify tags name Hget) as (-> & Hnew & Hs & Hk).
      set (tag := mkTag _ _ _ _) in *.
      specialize (IH (tags ++ [tag])). cbv zeta in IH.
      destruct (PostOps._set_tags slugify (tags ++ [tag]) names) as [tags2 rest] eqn:Hr.
      cbn [fst snd] in *. destruct IH as ((more & -> & Hlen) & Hall & Hs' & Hk').
      split_and!; [|constructor; [by apply tag_get_by_slug_app|done]|auto|auto].
      exists ([tag] ++ more). split; [by rewrite app_assoc|]. simpl. lia.
Qed.

Lemma set_tags_again slugify tags names result :
  Forall2 (λ name tag, TagService.get_by_slug tags (slugify name) = Some tag)
          names result →
  PostOps._set_tags slugify tags names = (tags, result).
Proof.
  induction 1 as [|name tag names result Hget _ IH]; [done|].
  cbn [PostOps._set_tags]. rewrite (tag_get_or_create_found _ _ _ _ Hget).
  by rewrite IH.
Qed.

(** X14.  [_set_tags] returns one tag for each name, in order; each has
    the slugified name as slug and is the tag the table now holds under
    that slug, so names with one slug share one tag; the table only
    grows, by at most one row for each name; unique slugs and ids stay
    unique; and running it again returns the same tags and creates
    nothing. *)
Theorem set_tags_spec (slugify : string → string) (tags : list Tag)
    (names : list string) :
  let r := PostOps._set_tags slugify tags names in
  length r.2 = length names ∧
  Forall2 (λ name tag,
             tag_slug tag = slugify name ∧
             TagService.get_by_slug r.1 (slugify name) = Some tag) names r.2 ∧
  (∃ rest, r.1 = tags ++ rest ∧ (length rest ≤ length names)%nat) ∧
  PostOps._set_tags slugify r.1 names = r ∧
  (NoDup (tag_slug <$> tags) → NoDup (tag_slug <$> r.1)) ∧
  (NoDup (tag_id <$> tags) → NoDup (tag_id <$> r.1)).
Proof.
  intros r. destruct (set_tags_shape slugify names tags) as (Hgrow & Hall & Hs & Hk).
  fold r in Hgrow, Hall, Hs, Hk. split_and!; [| |done| |done|done].
  - symmetry. by eapply Forall2_length.
  - eapply Forall2_impl; [exact Hall|]. intros name tag Hget. split; [|done].
    by apply tag_get_by_slug_Some in Hget as [? _].
  - rewrite (set_tags_again slugify r.1 names r.2 Hall). by destruct r.
Qed.

Example set_tags_shares_one_tag :
  PostOps._set_tags (λ s, s) [mkTag 1 "rocq" "rocq" 4] ["coq"; "rocq"; "coq"]
  = ([mkTag 1 "rocq" "rocq" 4; mkTag 2 "coq" "coq" 0],
     [mkTag 2 "coq" "coq" 0; mkTag 1 "rocq" "rocq" 4; mkTag 2 "coq" "coq" 0]).
Proof. reflexivity. Qed.

Global Instance most_used_first_total : Total most_used_first.
Proof. intros a b. unfold most_used_first. lia. Qed.

Global Instance most_used_first_trans : Transitive most_used_first.
Proof. intros a b c. unfold most_used_first. lia. Qed.

(** X15.  [get_popular] returns tags of the table that have posts only,
    most used first, as many as [limit] allows, and no tag with posts
    that is left out is used more than one returned; [get_all] with a
    limit of at least the size of the table returns every tag. *)
Theorem popular_tags (tags : list Tag) (limit : Z) :
  let popular := TagService.get_popular tags limit in
  let used := filter (λ t, tag_posts_count t > 0) tags in
  Forall (λ t, tag_posts_count t > 0 ∧ t ∈ tags) popular ∧
  StronglySorted most_used_first popular ∧
  length popular = min (Z.to_nat limit) (length used) ∧
  (∀ t, t ∈ used → t ∉ popular →
        Forall (λ p, tag_posts_count t ≤ tag_posts_count p) popular) ∧
  (Z.of_nat (length tags) ≤ limit → TagService.get_all tags limit ≡ₚ tags).
Proof.
  intros popular used. unfold popular, TagService.get_popular, TagService.get_all.
  fold used. set (ordered := merge_sort most_used_first used).
  assert (StronglySorted most_used_first ordered) as Hsorted
    by apply (StronglySorted_merge_sort _).
  assert (ordered ≡ₚ used) as Hperm by apply merge_sort_Permutation.
  split_and!.
  - apply Forall_forall. intros t Ht. apply subseteq_take in Ht.
    rewrite Hperm in Ht. by apply list_elem_of_filter in Ht.
  - rewrite <- (take_drop (Z.to_nat limit) ordered) in Hsorted.
    by apply StronglySorted_app_1_l in Hsorted.
  - by rewrite length_take, Hperm.
  - intros t Ht Hout. apply Forall_forall. intros p Hp.
    rewrite <- Hperm, <- (take_drop (Z.to_nat limit) ordered) in Ht.
    apply elem_of_app in Ht as [Ht|Ht]; [done|].
    rewrite <- (take_drop (Z.to_nat limit) ordered) in Hsorted.
    apply (StronglySorted_app_1_elem_of _ _ _ p t Hsorted Hp Ht).
  - intros Hall. rewrite take_ge; [apply merge_sort_Permutation|].
    rewrite merge_sort_Permutation. lia.
Qed.

(** ** Related posts *)

Lemma unique_spec rows : ∀ seen,
  (∀ p, p ∈ unique seen rows → p ∈ rows ∧ post_id p ∉ seen) ∧
  NoDup (post_id <$> unique seen rows) ∧
  (length (unique seen rows) ≤ length rows)%nat ∧
  (∀ p, p ∈ rows → post_id p ∉ seen → post_id p ∈ post_id <$> unique seen rows).
Proof.
  induction rows as [|q rows IH]; intros seen; cbn [unique].
  - split_and!; [by intros p ?%elem_of_nil|constructor|done|by intros p ?%elem_of_nil].
  - destruct (decide (post_id q ∈ seen)) as [Hq|Hq].
    + destruct (IH seen) as (H1 & H2 & H3 & H4). split_and!; [|done|simpl; lia|].
      * intros p Hp. destruct (H1 p Hp). split; [by right|done].
      * intros p [->|Hp]%elem_of_cons Hs; [done|]. by apply H4.
    + destruct (IH (post_id q :: seen)) as (H1 & H2 & H3 & H4).
      split_and!.
      * intros p [->|Hp]%elem_of_cons; [split; [left|done]|].
        destruct (H1 p Hp) as [? Hs]. split; [by right|].
        intros ?. apply Hs. by right.
      * rewrite fmap_cons. apply NoDup_cons. split; [|done].
        intros (p & Hk & Hp)%list_elem_of_fmap. destruct (H1 p Hp) as [_ Hs].
        apply Hs. rewrite Hk. left.
      * simpl. lia.
      * intros p [->|Hp]%elem_of_cons Hs; [rewrite fmap_cons; left|].
        rewrite fmap_cons. destruct (decide (post_id p = post_id q)) as [->|Hne].
        -- left.
        -- right. apply H4; [done|]. intros [?|?]%elem_of_cons; done.
Qed.

(** X16.  [get_related] never returns the post itself or an unpublished
    post, returns posts of the table, each at most once and at most
    [limit] of them; when the post has categories, every post returned
    shares one of them. *)
Theorem related_posts (db : Db) (post : Post) (limit : Z) :
  let related := PostOps.get_related db post limit in
  Forall (λ p,
            post_id p ≠ post_id post ∧
            post_is_published p = true ∧
            p ∈ posts db ∧
            (post_categories post ≠ [] →
             ∃ c, c ∈ post_categories p ∧ c ∈ post_categories post)) related ∧
  NoDup (post_id <$> related) ∧
  (length related ≤ Z.to_nat limit)%nat.
Proof.
  intros related. unfold related, PostOps.get_related.
  set (others := filter _ (posts db)).
  set (rows := match post_categories post with [] => others | _ :: _ => _ end).
  destruct (unique_spec (take (Z.to_nat limit) rows) []) as (Hsub & Hnd & Hlen & _).
  split_and!; [|done|].
  - apply Forall_forall. intros p Hp. destruct (Hsub p Hp) as [Hrows _].
    apply subseteq_take in Hrows. unfold rows in Hrows.
    destruct (post_categories post) as [|c cs] eqn:Hcats.
    + apply list_elem_of_filter in Hrows as [[? ?] ?]. by split_and!.
    + apply list_elem_of_bind in Hrows as (q & Hq & Hin).
      apply list_elem_of_fmap in Hq as (c' & -> & Hc').
      apply list_elem_of_filter in Hc' as [? ?].
      apply list_elem_of_filter in Hin as [[? ?] ?].
      split_and!; [done..|]. intros _. eauto.
  - rewrite length_take in Hlen. lia.
Qed.

(** ** Category listings *)

(** X17.  The menu is the part of the active tree that is shown in the
    menu: a node is in [get_menu_categories] exactly when it is a node
    of [get_tree] with [active_only] whose category has [show_in_menu];
    the menu is ordered by position then name. *)
Theorem menu_is_part_of_tree (db : Db) :
  (∀ node, node ∈ CategoryOps.get_menu_categories db ↔
           node ∈ CategoryService.get_tree db true ∧ cat_show_in_menu node.1 = true) ∧
  StronglySorted CategoryService.by_position_name
                 (CategoryOps.get_menu_categories db).*1.
Proof.
  unfold CategoryOps.get_menu_categories, CategoryService.get_tree. split.
  - intros node. rewrite !list_elem_of_fmap. split.
    + intros (c & -> & Hc). rewrite merge_sort_Permutation in Hc.
      apply list_elem_of_filter in Hc as [(Ha & Hm & Hp) Hin]. split; [|done].
      exists c. split; [done|]. rewrite merge_sort_Permutation.
      apply list_elem_of_filter. split; [|done]. split; [done|].
      intros _. by apply Is_true_true.
    + intros [(c & -> & Hc) Hm]. exists c. split; [done|].
      rewrite merge_sort_Permutation in Hc. rewrite merge_sort_Permutation.
      apply list_elem_of_filter in Hc as [[Hp Ha] Hin].
      apply list_elem_of_filter. split; [|done]. split_and!; [|done|done].
      apply Is_true_true, Ha. done.
  - rewrite <- list_fmap_compose, list_fmap_id. apply (StronglySorted_merge_sort _).
Qed.

(** ** Cycles: what creation and deletion cannot do *)

Lemma get_app_old {A : Type} (key : A → Z) (t : list A) (row : A) (id : Z) :
  key row ≠ id → Table.get key id (t ++ [row]) = Table.get key id t.
Proof.
  intros Hne. unfold Table.get. rewrite filter_app, filter_cons_False by done.
  cbn. by rewrite app_nil_r.
Qed.

Lemma get_app_is_Some {A : Type} (key : A → Z) (t rest : list A) (id : Z) :
  is_Some (Table.get key id t) → is_Some (Table.get key id (t ++ rest)).
Proof.
  unfold Table.get. rewrite filter_app. intros [r Hr].
  destruct (filter _ t); [done|]. eauto.
Qed.

Lemma descends_target db a b :
  descends db a b → ∃ y, parent_of db y = Some b.
Proof. induction 1; eauto. Qed.

Section create_cycle_facts.
Variables (db db' : Db) (new : Category).
Hypothesis Hcats : categories db' = categories db ++ [new].
Hypothesis Hfresh : cat_id new = Table.fresh cat_id (categories db).
Hypothesis Hself : cat_parent_id new ≠ Some (cat_id new).
Hypothesis Hintegrity : parents_exist db.

Lemma parent_of_old id : id ≠ cat_id new → parent_of db' id = parent_of db id.
Proof.
  intros Hne. unfold parent_of, CategoryService.get_by_id.
  rewrite Hcats, get_app_old; [done|congruence].
Qed.

Lemma nobody_points_to_new y : parent_of db' y ≠ Some (cat_id new).
Proof.
  intros Hy. destruct (decide (y = cat_id new)) as [->|Hne].
  - unfold parent_of, CategoryService.get_by_id in Hy.
    rewrite Hcats, get_add_fresh in Hy by done. by apply Hself.
  - rewrite parent_of_old in Hy by done.
    unfold parent_of in Hy.
    destruct (CategoryService.get_by_id db y) as [c|] eqn:Hc; [|done].
    simpl in Hy. apply get_Some in Hc as [Hc _].
    destruct (Hintegrity c (cat_id new) Hc Hy) as [r Hr].
    apply get_Some in Hr as [Hr Hk]. apply (fresh_ne cat_id _ r Hr). congruence.
Qed.

Lemma descends_old a b : descends db' a b → a ≠ cat_id new → descends db a b.
Proof.
  induction 1 as [a b Hab|a b c Hab Hbc IH]; intros Ha.
  - apply descends_parent. by rewrite <- parent_of_old.
  - apply (descends_further _ a b c).
    + by rewrite <- parent_of_old.
    + apply IH. intros ->. by apply (nobody_points_to_new a).
Qed.

Lemma create_keeps_acyclic : acyclic db → acyclic db'.
Proof.
  intros Hacyclic id Hid.
  destruct (decide (id = cat_id new)) as [->|Hne].
  - destruct (descends_target _ _ _ Hid) as [y Hy]. by apply (nobody_points_to_new y).
  - by apply (Hacyclic id), descends_old.
Qed.

End create_cycle_facts.

(** X18.  On a table where every [parent_id] names a category and no
    category descends from itself, an accepted POST /categories (with a
    parent other than 0) leaves a table with the same two properties:
    creation cannot close a parent cycle. *)
Theorem create_category_keeps_acyclic (slugify : string → string) (db db' : Db)
    (data : CategoryCreate) (category : Category) :
  acyclic db →
  parents_exist db →
  cc_cat_parent_id data ≠ Some 0 →
  CategoriesApi.create_category slugify db data = (db', Ok category) →
  acyclic db' ∧ parents_exist db'.
Proof.
  intros Hacyclic Hintegrity Hzero Hcreate.
  destruct (create_category_Ok slugify db data db' category Hcreate)
    as [Hparent Hname].
  destruct (create_category_accepted slugify db data Hparent Hname)
    as (db1 & c1 & Hc1 & Hcats & Hfresh & _ & Hpar & _).
  rewrite Hc1 in Hcreate. injection Hcreate as -> ->.
  assert (cat_parent_id category ≠ Some (cat_id category)) as Hself.
  { rewrite Hpar. by apply (new_category_not_own_parent db). }
  split.
  - by apply (create_keeps_acyclic db db' category).
  - intros c p Hc Hp. unfold CategoryService.get_by_id. rewrite Hcats.
    apply get_app_is_Some. rewrite Hcats in Hc.
    apply elem_of_app in Hc as [Hc|Hc%list_elem_of_singleton].
    + by apply (Hintegrity c).
    + subst c. rewrite Hpar in Hp. apply Hparent; [done|]. congruence.
Qed.

Section delete_cycle_facts.
Variables (db : Db) (category : Category).

Let orphan (c : Category) : Category :=
  if decide (cat_parent_id c = Some (cat_id category))
  then cat_set_parent_id c None else c.

Lemma delete_categories :
  categories (CategoryService.delete db category)
  = orphan <$> Table.remove cat_id (cat_id category) (categories db).
Proof. done. Qed.

Lemma orphan_id c : cat_id (orphan c) = cat_id c.
Proof. unfold orphan. by destruct (decide _). Qed.

Lemma orphan_parent c p :
  cat_parent_id (orphan c) = Some p ↔
  cat_parent_id c = Some p ∧ p ≠ cat_id category.
Proof.
  unfold orphan. destruct (decide _) as [Hd|Hd]; simpl.
  - split; [done|]. intros [? ?]. congruence.
  - split; [|tauto]. intros Hp. split; [done|]. congruence.
Qed.

Lemma get_after_delete id :
  CategoryService.get_by_id (CategoryService.delete db category) id
  = if decide (id = cat_id category) then None
    else orphan <$> CategoryService.get_by_id db id.
Proof.
  unfold CategoryService.get_by_id. rewrite delete_categories.
  unfold Table.get, Table.remove.
  induction (categories db) as [|x t IH]; [by destruct (decide _)|].
  destruct (decide (cat_id x ≠ cat_id category)) as [Hx|Hx].
  - rewrite (filter_cons_True (λ r, cat_id r ≠ cat_id category)) by done.
    rewrite fmap_cons. destruct (decide (cat_id x = id)) as [Hid|Hid].
    + rewrite (filter_cons_True (λ r, cat_id r = id) (orphan x))
        by (by rewrite orphan_id).
      rewrite (filter_cons_True (λ r, cat_id r = id) x) by done.
      rewrite decide_False by congruence. done.
    + rewrite (filter_cons_False (λ r, cat_id r = id) (orphan x))
        by (by rewrite orphan_id).
      rewrite (filter_cons_False (λ r, cat_id r = id) x) by done. exact IH.
  - rewrite (filter_cons_False (λ r, cat_id r ≠ cat_id category)) by done.
    rewrite IH. destruct (decide (id = cat_id category)) as [->|Hid]; [done|].
    rewrite (filter_cons_False (λ r, cat_id r = id)); [done|].
    intros Heq. apply Hx. congruence.
Qed.

Lemma parent_after_delete a b :
  parent_of (CategoryService.delete db category) a = Some b →
  parent_of db a = Some b ∧ b ≠ cat_id category.
Proof.
  unfold parent_of. rewrite get_after_delete.
  destruct (decide (a = cat_id category)); [done|].
  destruct (CategoryService.get_by_id db a) as [c|]; [|done]. simpl.
  intros Hp. by apply orphan_parent in Hp.
Qed.

Lemma descends_after_delete a b :
  descends (CategoryService.delete db category) a b → descends db a b.
Proof.
  induction 1 as [a b Hab|a b c Hab _ IH].
  - apply descends_parent. by apply parent_after_delete in Hab as [? _].
  - apply (descends_further _ a b c); [|done].
    by apply parent_after_delete in Hab as [? _].
Qed.

Lemma integrity_after_delete :
  parents_exist db → parents_exist (CategoryService.delete db category).
Proof.
  intros Hintegrity c' p Hc' Hp. rewrite delete_categories in Hc'.
  apply list_elem_of_fmap in Hc' as (c & -> & Hc).
  unfold Table.remove in Hc. apply list_elem_of_filter in Hc as [_ Hc].
  apply orphan_parent in Hp as [Hp Hne].
  rewrite get_after_delete, decide_False by done.
  destruct (Hintegrity c p Hc Hp) as [r ->]. by eexists.
Qed.

End delete_cycle_facts.

(** X19.  An accepted DELETE /categories/{id} removes parent links and
    adds none: every category that descends from another afterwards did
    so before, so a table without parent cycles stays without, and a
    table where every [parent_id] names a category stays so (children of
    the deleted category become roots). *)
Theorem delete_category_keeps_acyclic (db db' : Db) (category_id : Z) :
  CategoriesApi.delete_category db category_id = (db', Ok ()) →
  (∀ a b, descends db' a b → descends db a b) ∧
  (acyclic db → acyclic db') ∧
  (parents_exist db → parents_exist db').
Proof.
  unfold CategoriesApi.delete_category.
  destruct (CategoryService.get_by_id db category_id) as [category|]; [|done].
  destruct (decide (cat_posts_count category > 0)); [done|].
  intros [= <-]. split_and!.
  - apply descends_after_delete.
  - intros Hacyclic id Hid.
    by apply (Hacyclic id), (descends_after_delete db category).
  - apply integrity_after_delete.
Qed.

Lemma delete_category_keeps_acyclic_witness :
  let db' := (CategoriesApi.delete_category inactive_child_db 1).1 in
  (∀ a b, descends db' a b → descends inactive_child_db a b) ∧
  (acyclic inactive_child_db → acyclic db') ∧
  (parents_exist inactive_child_db → parents_exist db').
Proof.
  apply (delete_category_keeps_acyclic inactive_child_db
           (CategoriesApi.delete_category inactive_child_db 1).1 1).
  reflexivity.
Defined.

(** A table of roots has no parent links at all. *)
Lemma roots_only_acyclic (db : Db) :
  (∀ c, c ∈ categories db → cat_parent_id c = None) →
  acyclic db ∧ parents_exist db.
Proof.
  intros Hroots.
  assert (∀ a b, parent_of db a ≠ Some b) as Hnone.
  { intros a b. unfold parent_of.
    destruct (CategoryService.get_by_id db a) as [c|] eqn:Hc; [|done].
    apply get_Some in Hc as [Hc _]. simpl. by rewrite (Hroots c Hc). }
  split.
  - intros id Hid. destruct (descends_target _ _ _ Hid) as [y Hy]. by apply (Hnone y id).
  - intros c p Hc Hp. by rewrite (Hroots c Hc) in Hp.
Qed.

Lemma counted_db_roots c : c ∈ categories counted_db → cat_parent_id c = None.
Proof.
  intros [->|[->|Hc%elem_of_nil]%elem_of_cons]%elem_of_cons; done.
Qed.

Lemma create_category_keeps_acyclic_witness :
  let db' := mkDb [] [] [mkCategory 1 "News" "news" None true true 0 3;
                         mkCategory 2 "Sport" "sport" None true true 0 0;
                         mkCategory 3 "Chess" "Chess" (Some 2) true true 0 0] [] [] in
  acyclic db' ∧ parents_exist db'.
Proof.
  apply (create_category_keeps_acyclic (λ s, s) counted_db _
           (mkCategoryCreate "Chess" (Some 2) true true 0)
           (mkCategory 3 "Chess" "Chess" (Some 2) true true 0 0)).
  - apply (roots_only_acyclic counted_db), counted_db_roots.
  - apply (roots_only_acyclic counted_db), counted_db_roots.
  - discriminate.
  - vm_compute. reflexivity.
Defined.

(** World is retitled "hello", a slug the other post holds, and its
    categories are cleared. *)
Lemma post_update_keeps_unique_witness :
  ∃ db' updated,
    PostOps.update (λ s, s) two_posts_db (mkPost 2 "World" "world" 1 true 0%Qc 0 [1])
      (mkPostUpdate (Some (Some "hello")) None None None None None (Some []))
      = Ok (db', updated) ∧
    PostService.get_by_id db' 2 = Some updated ∧
    post_id updated = 2 ∧
    post_rating updated = 0%Qc ∧
    post_votes_count updated = 0 ∧
    post_title updated = "hello" ∧
    NoDup (post_id <$> posts db') ∧
    NoDup (post_slug <$> posts db') ∧
    (Some (Some "hello") = None → post_slug updated = "world") ∧
    (∀ title, Some (Some "hello") = Some (Some title) →
       if decide (title = "world")
       then post_slug updated = "world"
       else first_free_slug
              (λ s, ∃ r, r ∈ posts two_posts_db ∧ post_slug r = s ∧ post_id r ≠ 2)
              title (post_slug updated)) ∧
    post_categories updated
      = cat_id <$> filter (λ c, cat_id c ∈ []) (categories two_posts_db).
Proof.
  destruct (post_update_keeps_unique (λ s, s) two_posts_db
              (mkPost 2 "World" "world" 1 true 0%Qc 0 [1])
              (mkPostUpdate (Some (Some "hello")) None None None None None (Some [])))
    as (_ & _ & Haccepted).
  - apply (bool_decide_unpack _). by vm_compute.
  - apply (bool_decide_unpack _). by vm_compute.
  - right. left.
  - apply Haccepted; [done|done|].
    unfold pu_null_column. cbn. intros [?|[?|[?|?]]]; discriminate.
Defined.

Example update_post_to_taken_title :
  PostOps.update (λ s, s) two_posts_db (mkPost 2 "World" "world" 1 true 0%Qc 0 [1])
    (mkPostUpdate (Some (Some "hello")) None None None None None (Some []))
  = Ok (mkDb [mkPost 1 "Hello" "hello" 1 true 0%Qc 0 [];
              mkPost 2 "hello" "hello-1" 1 true 0%Qc 0 []] []
             [mkCategory 1 "News" "news" None true true 0 0] [] [],
        mkPost 2 "hello" "hello-1" 1 true 0%Qc 0 []).
Proof. vm_compute. reflexivity. Qed.

(** A body that sets the title, or a column that cannot be null, to
    null. *)
Example update_post_with_null :
  PostOps.update (λ s, s) two_posts_db (mkPost 2 "World" "world" 1 true 0%Qc 0 [1])
    (mkPostUpdate (Some None) None None None None None None) = Err TypeError ∧
  PostOps.update (λ s, s) two_posts_db (mkPost 2 "World" "world" 1 true 0%Qc 0 [1])
    (mkPostUpdate None None (Some None) None None None None) = Err IntegrityError ∧
  PostOps.update (λ s, s) two_posts_db (mkPost 2 "World" "world" 1 true 0%Qc 0 [1])
    (mkPostUpdate None (Some None) None None None None None) = Err IntegrityError.
Proof. split_and!; vm_compute; reflexivity. Qed.

Lemma pending_count_moves_witness :
  CommentOps.get_pending_count (CommentService.approve pending_db pending_comment).1
  = CommentOps.get_pending_count pending_db - 1 ∧
  CommentOps.get_pending_count (CommentService.pin pending_db pending_comment).1
  = CommentOps.get_pending_count pending_db ∧
  CommentOps.get_pending_count (CommentService.unpin pending_db pending_comment).1
  = CommentOps.get_pending_count pending_db ∧
  ∀ content,
    CommentOps.get_pending_count (CommentService.update pending_db pending_comment content).1
    = CommentOps.get_pending_count pending_db.
Proof.
  apply (proj2 (pending_count_moves pending_db) pending_comment).
  - apply NoDup_singleton.
  - left.
Defined.

Example related_cut_before_unique :
  (post_id <$> PostOps.get_related
     (mkDb [mkPost 1 "a" "a" 1 true 0%Qc 0 [1; 2];
            mkPost 2 "b" "b" 1 true 0%Qc 0 [1; 2];
            mkPost 3 "c" "c" 1 true 0%Qc 0 [1]] [] [] [] [])
     (mkPost 1 "a" "a" 1 true 0%Qc 0 [1; 2]) 2) = [2].
Proof. reflexivity. Qed.

(** ** A new comment is listed at once *)

(** X20.  A top-level comment is listed as soon as it is created: with
    [approved_only], some page between 1 and the page count of the
    listing of its post holds it. *)
Theorem new_comment_is_listed (db : Db) (data : CommentCreate)
    (author_id : option Z) (now per_page : Z) :
  1 ≤ per_page →
  cc_parent_id data = None →
  let db' := (CommentService.create db data author_id now).1 in
  let comment := (CommentService.create db data author_id now).2 in
  let total := (CommentService.get_by_post db' (cc_post_id data) 1 per_page true).2 in
  ∃ page,
    1 ≤ page ≤ CommentsApi.page_count total per_page ∧
    comment ∈ (CommentService.get_by_post db' (cc_post_id data) page per_page true).1.*1.
Proof.
  intros Hper Hparent db' comment total.
  pose proof (pages_join_all db' (cc_post_id data) per_page true Hper) as Hjoin.
  cbv zeta in Hjoin. fold total in Hjoin.
  assert (comment ∈ merge_sort CommentService.pinned_newest_first
            (filter (CommentService.top_level (cc_post_id data) true) (comments db')))
    as Hin.
  { rewrite merge_sort_Permutation. apply list_elem_of_filter. split.
    - unfold comment, CommentService.create. cbn. by split_and!.
    - unfold db', comment, CommentService.create, Table.add. cbn.
      apply elem_of_app. right. left. }
  rewrite <- Hjoin in Hin.
  apply list_elem_of_join in Hin as (l & Hc & Hl).
  apply list_elem_of_fmap in Hl as (k & -> & Hk). apply elem_of_seq in Hk.
  exists (Z.of_nat k + 1). split; [lia|done].
Qed.

Lemma new_comment_is_listed_witness :
  let data := mkCommentCreate "fresh" 1 None in
  let db' := (CommentService.create thread_db data None 70).1 in
  let comment := (CommentService.create thread_db data None 70).2 in
  let total := (CommentService.get_by_post db' 1 1 2 true).2 in
  ∃ page,
    1 ≤ page ≤ CommentsApi.page_count total 2 ∧
    comment ∈ (CommentService.get_by_post db' 1 page 2 true).1.*1.
Proof.
  apply (new_comment_is_listed thread_db (mkCommentCreate "fresh" 1 None) None 70 2).
  - lia.
  - reflexivity.
Defined.

(** ** Counting posts of a category *)

(** X21.  The post counter of a category never goes below zero: a
    decrement at zero changes nothing; and on a table with unique ids an
    increment followed by a decrement leaves the store as it was. *)
Theorem posts_count_round_trip (db : Db) (category : Category) :
  0 ≤ cat_posts_count category →
  NoDup (cat_id <$> categories db) →
  category ∈ categories db →
  0 ≤ cat_posts_count (CategoryService.decrement_posts_count db category).2 ∧
  (cat_posts_count category = 0 →
   CategoryService.decrement_posts_count db category = (db, category)) ∧
  (let '(db1, category1) := CategoryService.increment_posts_count db category in
   cat_posts_count category1 = cat_posts_count category + 1 ∧
   CategoryService.decrement_posts_count db1 category1 = (db, category)).
Proof.
  intros Hn Hnd Hin. split_and!.
  - by apply posts_count_stays_non_negative.
  - apply decrement_at_zero.
  - unfold CategoryService.increment_posts_count, CategoryService.decrement_posts_count.
    cbn [cat_posts_count cat_set_posts_count]. split; [done|].
    rewrite decide_True by lia.
    cbn [categories set_categories cat_id cat_set_posts_count].
    assert (cat_set_posts_count
              (cat_set_posts_count category (cat_posts_count category + 1))
              (cat_posts_count category + 1 - 1) = category) as ->.
    { destruct category. unfold cat_set_posts_count. cbn. f_equal. lia. }
    rewrite put_put_key by done.
    rewrite (put_same cat_id (categories db) category) by done.
    by destruct db.
Qed.

Lemma posts_count_round_trip_witness :
  0 ≤ cat_posts_count
        (CategoryService.decrement_posts_count counted_db
           (mkCategory 2 "Sport" "sport" None true true 0 0)).2 ∧
  (0 = 0 →
   CategoryService.decrement_posts_count counted_db
     (mkCategory 2 "Sport" "sport" None true true 0 0)
   = (counted_db, mkCategory 2 "Sport" "sport" None true true 0 0)) ∧
  (let '(db1, category1) :=
     CategoryService.increment_posts_count counted_db
       (mkCategory 2 "Sport" "sport" None true true 0 0) in
   cat_posts_count category1 = 0 + 1 ∧
   CategoryService.decrement_posts_count db1 category1
   = (counted_db, mkCategory 2 "Sport" "sport" None true true 0 0)).
Proof.
  apply (posts_count_round_trip counted_db
           (mkCategory 2 "Sport" "sport" None true true 0 0)).
  - simpl. lia.
  - apply (bool_decide_unpack _). by vm_compute.
  - right. left.
Defined.

(** The bounded walk only reports links that are there. *)
Lemma ancestor_descends fuel db id target :
  ancestor fuel db id target = true → descends db id target.
Proof.
  revert id. induction fuel as [|fuel IH]; intros id; simpl; [done|].
  destruct (parent_of db id) as [p|] eqn:Hp; [|done].
  intros [Heq|Hrec]%orb_true_iff.
  - apply bool_decide_eq_true in Heq as ->. by apply descends_parent.
  - apply (descends_further _ id p target); [done|]. by apply IH.
Qed.
